(** * A model of the music client (client.py)

    The client has two long-lived threads.  [ClientThread] reads user
    commands, fetches missing tracks from the server with a chunked
    request/reply exchange and puts instructions in a queue.  [PlayerThread]
    takes the instructions off the queue and drives a transient playback
    thread ([play_all]) over the playlist.

    The Python objects are embedded as records, methods as functions from
    record to record.  The playback thread is a field of the player whose
    value is the control point the thread has reached; the instructions of
    the consumer loop and the steps of the playback thread interleave at the
    granularity of one instruction and one blocking call. *)

From Stdlib Require Import ZArith Lia.
From stdpp Require Import base gmap strings list.

#[local] Set Warnings "-clear-no-such-hyp".

(** ** Python built-ins used by the source *)

Module Py.

Section Lists.
Context {A : Type} `{EqDecision A}.

(** [l.index(x)]: position of the first occurrence, [None] standing for
    [ValueError]. *)
Fixpoint index_of (x : A) (l : list A) : option nat :=
  match l with
  | [] => None
  | y :: l' => if decide (y = x) then Some 0%nat else S <$> index_of x l'
  end.

(** [l[i]] for a Python int: negative subscripts count from the end, [None]
    stands for [IndexError]. *)
Definition getitem (l : list A) (i : Z) : option A :=
  if (0 <=? i)%Z then l !! Z.to_nat i
  else if (0 <=? i + Z.of_nat (length l))%Z
       then l !! Z.to_nat (i + Z.of_nat (length l))
       else None.

(** [l.pop(i)] for an [i] returned by [index]: the list without position
    [i]. *)
Definition pop (i : nat) (l : list A) : list A := delete i l.

End Lists.

(** Iterating over a [str] yields its characters as strings of length
    one. *)
Fixpoint chars (s : string) : list string :=
  match s with
  | EmptyString => []
  | String c s' => String c EmptyString :: chars s'
  end.

End Py.

(** ** The local songs directory and the playback capability *)

(** The content of a file, and a chunk on the wire. *)
Abbreviation bytes := (list Byte.byte).

(** What [simpleaudio.WaveObject.from_wave_file] does with a path: it
    returns a wave object or raises one of the three exceptions that
    [play_song] handles. *)
Inductive wave_result :=
| Opened
| FileNotFoundError
| WaveError (e : string)
| EOFError.

Inductive level := WARNING | ERROR.

(** Control point of [self.playback_thread].  [Finished] covers both the
    initial [None] and a thread whose [play_all] has returned; [Crashed] is
    a thread killed by an exception that [play_all] does not catch. *)
Inductive thread :=
| Finished
| AtLoop
| InWaitDone
| Crashed.

Module Player.

(** The attributes set in [PlayerThread.__init__], plus the records the
    logging module has emitted at WARNING and ERROR level ([logged]); the
    INFO and DEBUG records only print playlists and progress and are left
    out. *)
Record PlayerThread := mkPlayer {
  playlist : list string;
  temp_playlist : list string;
  playlist_info : bool;
  playlist_end : bool;
  playback_thread : thread;
  thread_running : bool;
  song_name : option string;
  current_song : option string;
  index : Z;
  update_index : bool;
  stopped : bool;
  paused : bool;
  logged : list (level * string)
}.

Definition init : PlayerThread :=
  {| playlist := []; temp_playlist := []; playlist_info := false;
     playlist_end := false; playback_thread := Finished;
     thread_running := false; song_name := None; current_song := None;
     index := 0; update_index := true; stopped := false; paused := false;
     logged := [] |}.

(** Attribute assignments. *)
Definition set_playlist v s :=
  let 'mkPlayer _ b c d e f g h i j k l m := s in mkPlayer v b c d e f g h i j k l m.
Definition set_temp_playlist v s :=
  let 'mkPlayer a _ c d e f g h i j k l m := s in mkPlayer a v c d e f g h i j k l m.
Definition set_playlist_info v s :=
  let 'mkPlayer a b _ d e f g h i j k l m := s in mkPlayer a b v d e f g h i j k l m.
Definition set_playlist_end v s :=
  let 'mkPlayer a b c _ e f g h i j k l m := s in mkPlayer a b c v e f g h i j k l m.
Definition set_playback_thread v s :=
  let 'mkPlayer a b c d _ f g h i j k l m := s in mkPlayer a b c d v f g h i j k l m.
Definition set_thread_running v s :=
  let 'mkPlayer a b c d e _ g h i j k l m := s in mkPlayer a b c d e v g h i j k l m.
Definition set_song_name v s :=
  let 'mkPlayer a b c d e f _ h i j k l m := s in mkPlayer a b c d e f v h i j k l m.
Definition set_current_song v s :=
  let 'mkPlayer a b c d e f g _ i j k l m := s in mkPlayer a b c d e f g v i j k l m.
Definition set_index v s :=
  let 'mkPlayer a b c d e f g h _ j k l m := s in mkPlayer a b c d e f g h v j k l m.
Definition set_update_index v s :=
  let 'mkPlayer a b c d e f g h i _ k l m := s in mkPlayer a b c d e f g h i v k l m.
Definition set_stopped v s :=
  let 'mkPlayer a b c d e f g h i j _ l m := s in mkPlayer a b c d e f g h i j v l m.
Definition set_paused v s :=
  let 'mkPlayer a b c d e f g h i j k _ m := s in mkPlayer a b c d e f g h i j k v m.
Definition set_logged v s :=
  let 'mkPlayer a b c d e f g h i j k l _ := s in mkPlayer a b c d e f g h i j k l v.

(** [logging.warning(msg)] and [logging.error(msg)]. *)
Definition log (lv : level) (msg : string) (s : PlayerThread) : PlayerThread :=
  set_logged (logged s ++ [(lv, msg)]) s.

(** Python truth value of a list. *)
Definition truthy {A} (l : list A) : bool :=
  match l with [] => false | _ => true end.

(** The sequence the player iterates over:
    [self.temp_playlist if self.temp_playlist else self.playlist]. *)
Definition active (s : PlayerThread) : list string :=
  if truthy (temp_playlist s) then temp_playlist s else playlist s.

(** [add]: append every name of [args] to the playlist. *)
Definition add (args : list string) (s : PlayerThread) : PlayerThread :=
  foldl (λ s filename, set_playlist (playlist s ++ [filename]) s) s args.

(** [valid_index]. *)
Definition valid_index (amount : Z) (s : PlayerThread) : bool :=
  bool_decide (0 ≤ index s + amount < Z.of_nat (length (active s)))%Z.

(** [fix_index]. *)
Definition fix_index (rm_index : nat) (s : PlayerThread) : PlayerThread :=
  if (index s >? Z.of_nat rm_index)%Z then set_index (index s - 1) s
  else if (index s =? Z.of_nat rm_index)%Z then set_update_index false s
  else s.

(** [remove_song]: [ValueError] of [list.index] is caught and logged. *)
Definition remove_song (filename : string) (s : PlayerThread) : PlayerThread :=
  match Py.index_of filename (playlist s) with
  | Some rm_index =>
      fix_index rm_index (set_playlist (Py.pop rm_index (playlist s)) s)
  | None => log WARNING ("'" +:+ filename +:+ "' not in playlist") s
  end.

(** [remove]: [args] is whatever iterable the caller passes. *)
Definition remove (args : list string) (s : PlayerThread) : PlayerThread :=
  if truthy args then foldl (λ s filename, remove_song filename s) s args
  else log WARNING "Provide the name of the songs to" s.

(** [resume_song]. *)
Definition resume_song (s : PlayerThread) : PlayerThread :=
  if paused s then set_paused false s else s.

(** [pause_song]. *)
Definition pause_song (s : PlayerThread) : PlayerThread :=
  match current_song s with
  | None => s
  | Some _ => if paused s then s else set_paused true s
  end.

(** [stop]; [simpleaudio.stop_all()] makes the pending [wait_done]
    return, which is the playback thread's next step. *)
Definition stop (reset : bool) (s : PlayerThread) : PlayerThread :=
  match current_song s with
  | None => s
  | Some _ =>
      let s := resume_song s in
      let s := set_stopped true s in
      let s := set_paused false s in
      if reset
      then set_playlist_info false (set_temp_playlist [] (set_index 0 s))
      else s
  end.

(** What decoding a local file yields; the decoder itself lies outside the
    client. *)
Inductive decoded :=
| Playable
| NotWave (e : string)
| Truncated.

(** An instruction taken off the queue: [{'command': ..., 'args': ...}]. *)
Record instruction := { command : string; args : list string }.

(** The instructions the client thread builds for [add], [rm] and [play]. *)
Definition AddCmd (batch : list string) : instruction :=
  {| command := "add"; args := batch |}.
Definition RmCmd (names : list string) : instruction :=
  {| command := "rm"; args := names |}.
Definition PlayCmd (names : list string) : instruction :=
  {| command := "play"; args := names |}.

Section Playback.

(** The songs directory maps a file name to the bytes stored under it;
    [read_wave] is the wave decoder. *)
Variable read_wave : bytes → decoded.

(** [simpleaudio.WaveObject.from_wave_file(f"{SONGS_DIR}{filename}")]. *)
Definition from_wave_file (fs : gmap string bytes) (filename : string) : wave_result :=
  match fs !! filename with
  | None => FileNotFoundError
  | Some b =>
      match read_wave b with
      | Playable => Opened
      | NotWave e => WaveError e
      | Truncated => EOFError
      end
  end.

(** The thread object handed to [start()] in [play]. *)
Definition spawn (s : PlayerThread) : PlayerThread :=
  let s := if playlist_info s then s else set_playlist_info true s in
  let s := set_playback_thread AtLoop s in
  let s := set_stopped false s in
  let s := set_playlist_end false s in
  set_thread_running true s.

(** The calls of [f] that the comprehension in [play] makes: a warning for
    every name that does not exist. *)
Definition warn_missing (fs : gmap string bytes) (args : list string) (s : PlayerThread)
  : PlayerThread :=
  foldl (λ s x, if decide (is_Some (fs !! x)) then s
                else log WARNING ("'" +:+ x +:+ "' not found") s) s args.

(** [play]: the comprehension keeps the names for which [f] is true, the
    ones that exist. *)
Definition play (fs : gmap string bytes) (args : list string) (s : PlayerThread)
  : PlayerThread :=
  if thread_running s then s
  else
    let s :=
      if truthy args
      then set_temp_playlist (filter (λ x, is_Some (fs !! x)) args)
             (warn_missing fs args s)
      else s in
    if truthy args && negb (truthy (temp_playlist s)) then s
    else if negb (truthy (playlist s)) && negb (truthy (temp_playlist s)) then s
    else spawn s.

(** The [finally] clause of [play_song]. *)
Definition finally (s : PlayerThread) : PlayerThread :=
  set_current_song None (set_song_name None s).

(** The tail of one iteration of [play_all], after [play_song] returned. *)
Definition after_song (s : PlayerThread) : PlayerThread :=
  if update_index s && negb (stopped s)
  then
    if valid_index 1 s then set_index (index s + 1) s
    else
      set_playlist_end true
        (set_playlist_info false (set_temp_playlist [] (set_index 0 s)))
  else s.

(** [play_song] up to the point where it blocks in [wait_done] or an
    exception handler has run.  The [wave.Error] and [EOFError] handlers
    call [remove] with the file name itself, a [str]. *)
Definition play_song (fs : gmap string bytes) (filename : string) (s : PlayerThread)
  : PlayerThread :=
  match from_wave_file fs filename with
  | Opened =>
      set_playback_thread InWaitDone
        (set_current_song (Some filename) (set_song_name (Some filename) s))
  | FileNotFoundError =>
      finally (remove_song filename
                 (log ERROR ("Can't play '" +:+ filename +:+ "', not found") s))
  | WaveError e =>
      finally (remove (Py.chars filename)
                 (log ERROR (e +:+ ", file extension must be '.wav'") s))
  | EOFError =>
      finally (remove (Py.chars filename)
                 (log ERROR ("'" +:+ filename +:+ "' is empty") s))
  end.

(** [play_all] returns: the statement after the loop. *)
Definition leave (s : PlayerThread) : PlayerThread :=
  set_playback_thread Finished (set_thread_running false s).

(** One iteration of [play_all] from the loop test up to the blocking
    [wait_done], or through a failed [play_song] back to the loop test.  An
    [IndexError] of the subscript is not caught anywhere: it ends the thread
    before [thread_running] is reset. *)
Definition loop_step (fs : gmap string bytes) (s : PlayerThread) : PlayerThread :=
  if playlist_end s then leave s
  else
    let s := set_update_index true s in
    if stopped s then leave s
    else
      match Py.getitem (active s) (index s) with
      | None => set_playback_thread Crashed s
      | Some filename =>
          match from_wave_file fs filename with
          | Opened => play_song fs filename s
          | _ => after_song (play_song fs filename s)
          end
      end.

(** [wait_done] returns, because the track ended or [stop_all] was called:
    the rest of the iteration. *)
Definition wait_done_returns (s : PlayerThread) : PlayerThread :=
  set_playback_thread AtLoop (after_song (finally s)).

Definition alive (s : PlayerThread) : bool :=
  match playback_thread s with
  | AtLoop | InWaitDone => true
  | Finished | Crashed => false
  end.

(** One step of the playback thread. *)
Definition worker_step (fs : gmap string bytes) (s : PlayerThread) : PlayerThread :=
  match playback_thread s with
  | AtLoop => loop_step fs s
  | InWaitDone => wait_done_returns s
  | Finished | Crashed => s
  end.

Fixpoint run_worker (fuel : nat) (fs : gmap string bytes) (s : PlayerThread)
  : PlayerThread :=
  match fuel with
  | O => s
  | S fuel' => if alive s then run_worker fuel' fs (worker_step fs s) else s
  end.

(** [self.playback_thread.join()] as [switch_song] calls it, right after
    [stop] has set [stopped]: the thread leaves [wait_done] and then the
    loop, two steps at most (lemma [join_returns]). *)
Definition join (fs : gmap string bytes) (s : PlayerThread) : PlayerThread :=
  run_worker 2 fs s.

(** [switch_song]. *)
Definition switch_song (fs : gmap string bytes) (amount : Z) (s : PlayerThread)
  : PlayerThread :=
  match current_song s with
  | None => s
  | Some _ =>
      if negb (valid_index amount s) then s
      else
        let s := stop false s in
        let s := join fs s in
        let s := set_index (index s + (if update_index s then amount else 0)) s in
        play fs [] s
  end.

(** The body of the consumer loop in [run] for one instruction. *)
Definition run (fs : gmap string bytes) (i : instruction) (s : PlayerThread)
  : PlayerThread :=
  let c := command i in
  if decide (c = "add") then add (args i) s
  else if decide (c = "play") then
    if paused s then resume_song s else play fs (args i) s
  else if decide (c = "stop") then stop true s
  else if decide (c = "pause") then pause_song s
  else if decide (c = "resume") then resume_song s
  else if decide (c = "prev") then switch_song fs (-1) s
  else if decide (c = "next" ∨ c = "skip") then switch_song fs 1 s
  else if decide (c = "del" ∨ c = "rm") then remove (args i) s
  else s (* 'info' prints the playlist and changes nothing *).

(** *** The player and its playback thread as one transition system *)

(** The playback thread can move when it is at the loop test, or blocked in
    [wait_done] on a song that is not paused: a paused song does not end,
    and [stop] resumes it before it halts the audio. *)
Definition enabled (s : PlayerThread) : Prop :=
  match playback_thread s with
  | AtLoop => True
  | InWaitDone => paused s = false
  | Finished | Crashed => False
  end.

(** Either the consumer loop executes one instruction, or the playback
    thread takes one step; the songs directory is whatever the client thread
    has made of it by then. *)
Inductive step : PlayerThread → PlayerThread → Prop :=
| step_instruction fs i s : step s (run fs i s)
| step_thread fs s : enabled s → step s (worker_step fs s).

Inductive reachable : PlayerThread → Prop :=
| reachable_init : reachable init
| reachable_step s s' : reachable s → step s s' → reachable s'.

(** What the attributes say about each other in every reachable state. *)
Record consistent (s : PlayerThread) : Prop := {
  index_nonneg : (0 ≤ index s)%Z;
  overlay_live :
    thread_running s = false ∨ playlist_end s = true ∨ stopped s = true →
    temp_playlist s = [];
  thread_state :
    match playback_thread s with
    | Finished => thread_running s = false ∧ current_song s = None
    | AtLoop | Crashed => thread_running s = true ∧ current_song s = None
    | InWaitDone => thread_running s = true ∧ current_song s ≠ None
    end;
  paused_song : paused s = true → current_song s ≠ None
}.

(** Where the index can be.  It stays within [0, len] of the active
    sequence; it is 0 whenever no playback thread runs, the sequence has
    ended or a stop was requested; and a thread that waits for a song has
    not seen the end of the sequence. *)
Record positioned (s : PlayerThread) : Prop := {
  index_in_range : (0 ≤ index s ≤ Z.of_nat (length (active s)))%Z;
  index_at_rest :
    thread_running s = false ∨ playlist_end s = true ∨ stopped s = true →
    index s = 0%Z;
  waiting_not_ended : playback_thread s = InWaitDone → playlist_end s = false
}.

(** What a removal leaves alone: the overlay and everything that describes
    the playback session. *)
Definition same_session (s s' : PlayerThread) : Prop :=
  temp_playlist s' = temp_playlist s ∧ playback_thread s' = playback_thread s
  ∧ thread_running s' = thread_running s ∧ playlist_end s' = playlist_end s
  ∧ stopped s' = stopped s ∧ paused s' = paused s
  ∧ current_song s' = current_song s ∧ song_name s' = song_name s
  ∧ playlist_info s' = playlist_info s.

(** The songs the playback thread starts while it takes [fuel] steps on its
    own: the names for which [play_song] reached [wave_obj.play()]. *)
Fixpoint songs_played (fuel : nat) (fs : gmap string bytes) (s : PlayerThread)
  : list string :=
  match fuel with
  | O => []
  | S fuel' =>
      if alive s
      then
        let s' := worker_step fs s in
        match playback_thread s, playback_thread s', song_name s' with
        | AtLoop, InWaitDone, Some filename =>
            filename :: songs_played fuel' fs s'
        | _, _, _ => songs_played fuel' fs s'
        end
      else []
  end.

(** The state in which [play_all] returns after the last song. *)
Definition played_out (s : PlayerThread) : PlayerThread :=
  leave (set_playlist_end true (set_playlist_info false
           (set_temp_playlist [] (set_index 0 (set_update_index true s))))).

End Playback.

End Player.

(** ** The client thread: chunked download and the instruction queue *)

Definition BUF_SIZE : nat := 10.

Module Client.

(** What the client does to the socket and to the songs directory, in the
    order it does it. *)
Inductive event :=
| SendJson (command : string) (args : string)
| SendString (s : string)
| Recv (data : bytes)
| FileWrite (filename : string) (data : bytes).

(** The client's world: the songs directory, the replies the server is going
    to give (in order), the instruction queue [q], the trace of socket and
    file operations so far, and the WARNING records logged. *)
Record ClientThread := mkClient {
  files : gmap string bytes;
  inbox : list bytes;
  q : list Player.instruction;
  trace : list event;
  logged : list string
}.

(** State and blocking: [None] is a call that never returns in this world
    ([recv] with no reply left, [put] on a full queue with no consumer). *)
Definition M (A : Type) : Type := ClientThread → option (A * ClientThread).

Definition ret {A} (a : A) : M A := λ c, Some (a, c).

Definition bind {A B} (m : M A) (k : A → M B) : M B :=
  λ c, match m c with
       | None => None
       | Some (a, c') => k a c'
       end.

Notation "x <~ m ;; k" := (bind m (λ x, k))
  (at level 100, m at next level, right associativity).
Notation "m ;;; k" := (bind m (λ _, k))
  (at level 100, right associativity).

Definition emit (e : event) : M unit :=
  λ c, Some (tt, mkClient (files c) (inbox c) (q c) (trace c ++ [e]) (logged c)).

(** [self.socket.send_json({'command': command, 'args': filename})]. *)
Definition send_json (command filename : string) : M unit :=
  emit (SendJson command filename).

(** [self.socket.send_string(s)]. *)
Definition send_string (s : string) : M unit := emit (SendString s).

(** [self.socket.recv()]. *)
Definition recv : M bytes :=
  λ c, match inbox c with
       | [] => None
       | data :: rest =>
           Some (data, mkClient (files c) rest (q c) (trace c ++ [Recv data]) (logged c))
       end.

(** [os.path.exists(f"{SONGS_DIR}{filename}")]. *)
Definition path_exists (filename : string) : M bool :=
  λ c, Some (bool_decide (is_Some (files c !! filename)), c).

(** [open(f'{SONGS_DIR}{filename}', 'ab')]: the file is created when it is
    not there, an existing one is kept. *)
Definition open_ab (filename : string) : M unit :=
  λ c, Some (tt, mkClient
                   (match files c !! filename with
                    | None => <[filename := []]> (files c)
                    | Some _ => files c
                    end)
                   (inbox c) (q c) (trace c) (logged c)).

(** [file.write(data)] on a file opened for appending. *)
Definition file_write (filename : string) (data : bytes) : M unit :=
  λ c, Some (tt, mkClient
                   (<[filename := default [] (files c !! filename) ++ data]> (files c))
                   (inbox c) (q c) (trace c ++ [FileWrite filename data]) (logged c)).

Definition warning (msg : string) : M unit :=
  λ c, Some (tt, mkClient (files c) (inbox c) (q c) (trace c) (logged c ++ [msg])).

(** [while data := self.socket.recv(): file.write(data); send_string('ok')]:
    the loop consumes one reply per turn, so it is a recursion on the
    replies still to come. *)
Fixpoint recv_loop (filename : string) (replies : list bytes) (c : ClientThread)
  : option (unit * ClientThread) :=
  match replies with
  | [] => None
  | data :: rest =>
      if Player.truthy data
      then
        match (recv ;;; file_write filename data ;;; send_string "ok") c with
        | None => None
        | Some (_, c') => recv_loop filename rest c'
        end
      else (recv ;;; ret tt) c
  end.

(** What the client does with one non-empty chunk: receive, write,
    acknowledge. *)
Definition chunk_events (filename : string) (data : bytes) : list event :=
  [Recv data; FileWrite filename data; SendString "ok"].

(** One turn of the [for] loop of [download]; the result tells whether the
    name is appended to [new_args]. *)
Definition download_one (filename : string) : M bool :=
  present <~ path_exists filename ;;
  if present : bool then ret true
  else
    send_json "down" filename ;;;
    data <~ recv ;;
    if Player.truthy data
    then
      open_ab filename ;;;
      file_write filename data ;;;
      send_string "ok" ;;;
      (λ c, recv_loop filename (inbox c) c) ;;;
      ret true
    else
      warning ("'" +:+ filename +:+ "' not found or it's empty") ;;;
      ret false.

(** [download]. *)
Fixpoint download_from (new_args : list string) (args : list string) : M (list string) :=
  match args with
  | [] => ret new_args
  | filename :: args' =>
      ok <~ download_one filename ;;
      download_from (if ok : bool then new_args ++ [filename] else new_args) args'
  end.

Definition download (args : list string) : M (list string) := download_from [] args.

(** [q.put(item)] on [queue.Queue(BUF_SIZE)]. *)
Definition put (item : Player.instruction) : M unit :=
  λ c, if decide (length (q c) < BUF_SIZE)%nat
       then Some (tt, mkClient (files c) (inbox c) (q c ++ [item]) (trace c) (logged c))
       else None.

(** [put_instruction]. *)
Definition put_instruction (command : string) (args : list string) : M unit :=
  if bool_decide (command = "play") && Player.truthy args
  then
    args <~ download args ;;
    if Player.truthy args
    then put {| Player.command := command; Player.args := args |}
    else ret tt
  else put {| Player.command := command; Player.args := args |}.

(** One turn of the loop of [delete]: [os.remove], whose [OSError] for a
    file that is not there is caught and logged (an ERROR record). *)
Definition delete_one (filename : string) : M unit :=
  λ c, match files c !! filename with
       | Some _ =>
           Some (tt, mkClient (base.delete filename (files c)) (inbox c) (q c)
                       (trace c) (logged c))
       | None =>
           Some (tt, mkClient (files c) (inbox c) (q c) (trace c)
                       (logged c ++ ["Can't delete '" +:+ filename +:+ "', not found"]))
       end.

(** [delete]. *)
Fixpoint delete (args : list string) : M unit :=
  match args with
  | [] => ret tt
  | filename :: args' => delete_one filename ;;; delete args'
  end.


(** The ['del'] branch of [run]. *)
Definition command_del (args : list string) : M unit :=
  if Player.truthy args
  then delete args ;;; put_instruction "del" args
  else warning "Provide the name of the songs".

End Client.

(** ** Program start *)

(** [pathlib.Path(SONGS_DIR).mkdir(exist_ok=True)] on a disk where the
    directory is there ([Some]) or not ([None]). *)
Definition mkdir_exist_ok (disk : option (gmap string bytes)) : gmap string bytes :=
  match disk with
  | None => ∅
  | Some fs => fs
  end.

(** [os.listdir(SONGS_DIR)]: every name once, in an order the system
    chooses (here the enumeration order of the map). *)
Definition listdir (fs : gmap string bytes) : list string := (map_to_list fs).*1.

(** [main] up to the start of the two threads: the directory after
    [mkdir] and the player that is started. *)
Definition main (disk : option (gmap string bytes)) : gmap string bytes * Player.PlayerThread :=
  let fs := mkdir_exist_ok disk in
  (fs, Player.add (listdir fs) Player.init).

(** ** Scenarios *)

Module Scenario.
Import Player.

(** A decoder that accepts every file, and one that tells the three kinds
    of file apart by the first byte. *)
Definition all_playable : bytes → decoded := λ _, Playable.

Definition by_first_byte (b : bytes) : decoded :=
  match b with
  | [] => Truncated
  | Byte.x52 :: _ => Playable
  | _ => NotWave "file does not start with RIFF id"
  end.

Definition two_songs : gmap string bytes :=
  {[ "a.wav" := [Byte.x52]; "b.wav" := [Byte.x52] ]}.

(** [add a.wav b.wav], [play], a.wav plays to its end, b.wav starts. *)
Definition playing_last : PlayerThread :=
  worker_step all_playable two_songs
    (worker_step all_playable two_songs
       (worker_step all_playable two_songs
          (run all_playable two_songs (PlayCmd [])
             (run all_playable two_songs (AddCmd ["a.wav"; "b.wav"]) init)))).

(** ... and [rm b.wav] arrives while b.wav is playing. *)
Definition last_removed : PlayerThread :=
  run all_playable two_songs (RmCmd ["b.wav"]) playing_last.

(** The scenario of the specification: a.wav, b.wav, c.wav with b.wav
    playing. *)
Definition playing_b : PlayerThread :=
  {| playlist := ["a.wav"; "b.wav"; "c.wav"]; temp_playlist := [];
     playlist_info := true; playlist_end := false;
     playback_thread := InWaitDone; thread_running := true;
     song_name := Some "b.wav"; current_song := Some "b.wav";
     index := 1; update_index := true; stopped := false; paused := false;
     logged := [] |}.

Definition three_songs : gmap string bytes :=
  {[ "a.wav" := [Byte.x52]; "b.wav" := [Byte.x52]; "c.wav" := [Byte.x52] ]}.

(** [play x.wav y.wav] with both files there; the playback thread is at the
    loop test. *)
Definition overlay_started : PlayerThread :=
  run all_playable
    {[ "x.wav" := [Byte.x52]; "y.wav" := [Byte.x52] ]}
    (PlayCmd ["x.wav"; "y.wav"]) init.

(** The directory after the client's [del x.wav]. *)
Definition only_y : gmap string bytes := {[ "y.wav" := [Byte.x52] ]}.

(** A playlist with one file that is not a wave file, about to be played. *)
Definition text_file : gmap string bytes := {[ "ab" := [Byte.x41] ]}.

Definition text_queued : PlayerThread :=
  run by_first_byte text_file (PlayCmd [])
    (run by_first_byte text_file (AddCmd ["ab"; "b"]) init).

(** A client with a.wav on disk, and a server that is going to answer one
    request with an empty chunk and the next with two chunks and the end
    marker. *)
Definition client_with_a : Client.ClientThread :=
  Client.mkClient {[ "a.wav" := [Byte.x52] ]}
    [[]; [Byte.x52; Byte.x49]; [Byte.x46]; []] [] [] [].

End Scenario.

(** * Properties *)

(** ** Python lists *)

Section PyFacts.
Context {A : Type} `{EqDecision A}.
Implicit Types (x : A) (l : list A).

Lemma index_of_None x l : Py.index_of x l = None ↔ (x ∉ l).
Proof.
  induction l as [|y l IH]; simpl.
  - split; [intros _; apply not_elem_of_nil | done].
  - destruct (decide (y = x)) as [->|Hne].
    + split; [done | intros []; left].
    + rewrite fmap_None, IH, not_elem_of_cons. naive_solver.
Qed.

Lemma index_of_Some x l k :
  Py.index_of x l = Some k ↔
  ∃ l1 l2, l = l1 ++ x :: l2 ∧ (x ∉ l1) ∧ k = length l1.
Proof.
  revert k. induction l as [|y l IH]; intros k; simpl.
  - split; [done | intros ([|??] & ? & ? & _); done].
  - destruct (decide (y = x)) as [->|Hne].
    + split.
      * intros [= <-]. exists [], l. split_and!; [done | apply not_elem_of_nil | done].
      * intros ([|z l1] & l2 & Heq & Hnotin & ->); [done|].
        simplify_eq/=. exfalso. apply Hnotin. left.
    + rewrite fmap_Some. split.
      * intros (k' & Hk' & ->). apply IH in Hk' as (l1 & l2 & -> & Hnotin & ->).
        exists (y :: l1), l2. split_and!; [done | | done].
        rewrite not_elem_of_cons. auto.
      * intros ([|z l1] & l2 & Heq & Hnotin & ->); simplify_eq/=.
        exists (length l1). split; [|done]. apply IH.
        exists l1, l2. rewrite not_elem_of_cons in Hnotin. naive_solver.
Qed.

Lemma pop_middle l1 x l2 : Py.pop (length l1) (l1 ++ x :: l2) = l1 ++ l2.
Proof. unfold Py.pop. induction l1 as [|y l1 IH]; simpl; [done | by rewrite IH]. Qed.

Lemma getitem_nonneg l (i : Z) :
  (0 ≤ i)%Z → Py.getitem l i = l !! Z.to_nat i.
Proof. intros Hi. unfold Py.getitem. destruct (Z.leb_spec 0 i); [done | lia]. Qed.

End PyFacts.

(** ** The player: adding, removing, switching *)

Import Player.

Ltac unrecord :=
  repeat match goal with s : PlayerThread |- _ => destruct s end; simpl in *.

Lemma add_app (args : list string) (s : PlayerThread) :
  add args s = set_playlist (playlist s ++ args) s.
Proof.
  unfold add. revert s. induction args as [|f args IH]; intros s; simpl.
  - unrecord. by rewrite app_nil_r.
  - rewrite IH. unrecord. by rewrite <- app_assoc.
Qed.

(** C9. Processing any sequence of [add] instructions appends the batches to
    the playlist in arrival order, duplicates included, and changes no other
    attribute of the player; from the initial state the playlist is the
    concatenation of the batches. *)
Theorem add_batches_concat (read_wave : bytes → decoded) (fs : gmap string bytes)
    (batches : list (list string)) (s : PlayerThread) :
  foldl (λ s b, run read_wave fs (AddCmd b) s) s batches
    = set_playlist (playlist s ++ concat batches) s
  ∧ playlist (foldl (λ s b, run read_wave fs (AddCmd b) s) init batches)
    = concat batches.
Proof.
  assert (Hgen : ∀ s, foldl (λ s b, run read_wave fs (AddCmd b) s) s batches
                      = set_playlist (playlist s ++ concat batches) s).
  { clear s. induction batches as [|b batches IH]; intros s; simpl.
    - unrecord. by rewrite app_nil_r.
    - rewrite IH. unfold run. simpl. rewrite add_app. unrecord.
      by rewrite <- app_assoc. }
  split; [apply Hgen|]. rewrite Hgen. reflexivity.
Qed.

Lemma remove_song_absent (t : string) (s : PlayerThread) :
  t ∉ playlist s →
  remove_song t s = log WARNING ("'" +:+ t +:+ "' not in playlist") s.
Proof. intros Hnotin. unfold remove_song. by apply index_of_None in Hnotin as ->. Qed.

Lemma remove_song_present (t : string) (s : PlayerThread) (l1 l2 : list string) :
  playlist s = l1 ++ t :: l2 → t ∉ l1 →
  remove_song t s = fix_index (length l1) (set_playlist (l1 ++ l2) s).
Proof.
  intros Hpl Hnotin. unfold remove_song.
  assert (Py.index_of t (playlist s) = Some (length l1)) as ->.
  { apply index_of_Some. eauto. }
  by rewrite Hpl, pop_middle.
Qed.

Lemma remove_singleton (t : string) (s : PlayerThread) : remove [t] s = remove_song t s.
Proof. reflexivity. Qed.

(** C4. [rm t]: when [t] is not in the playlist, playlist and index stay as
    they are; otherwise the first occurrence of [t], and nothing else, leaves
    the playlist, and the index goes down by one exactly when that
    occurrence was strictly before it. *)
Theorem remove_first_occurrence (read_wave : bytes → decoded) (fs : gmap string bytes)
    (t : string) (s : PlayerThread) :
  let s' := run read_wave fs (RmCmd [t]) s in
  ((t ∉ playlist s) ∧ playlist s' = playlist s ∧ index s' = index s)
  ∨ (∃ l1 l2,
        playlist s = l1 ++ t :: l2 ∧ (t ∉ l1) ∧
        playlist s' = l1 ++ l2 ∧
        temp_playlist s' = temp_playlist s ∧
        index s' = (if (Z.of_nat (length l1) <? index s)%Z
                    then index s - 1 else index s)%Z).
Proof.
  simpl. unfold run; simpl. rewrite remove_singleton.
  destruct (Py.index_of t (playlist s)) as [k|] eqn:Hk.
  - right. apply index_of_Some in Hk as (l1 & l2 & Hpl & Hnotin & ->).
    exists l1, l2. split_and!; [done..| | |];
      rewrite (remove_song_present _ _ _ _ Hpl Hnotin); unfold fix_index;
      unrecord; repeat case_match; simpl; try done; lia.
  - left. apply index_of_None in Hk. rewrite (remove_song_absent _ _ Hk).
    by unrecord.
Qed.

(** C5. [next], [skip] and [prev] whose candidate index lies outside the
    active sequence change nothing at all: the index does not wrap and no
    attribute of the player moves. *)
Theorem switch_out_of_bounds (read_wave : bytes → decoded) (fs : gmap string bytes)
    (c : string) (amount : Z) (a : list string) (s : PlayerThread) :
  (c = "next" ∨ c = "skip") ∧ amount = 1%Z ∨ c = "prev" ∧ amount = (-1)%Z →
  ¬ (0 ≤ index s + amount < Z.of_nat (length (active s)))%Z →
  run read_wave fs {| command := c; args := a |} s = s.
Proof.
  intros Hc Hout.
  assert (Hsw : switch_song read_wave fs amount s = s).
  { unfold switch_song. destruct (current_song s); [|done].
    unfold valid_index. by rewrite bool_decide_eq_false_2. }
  unfold run; simpl. destruct Hc as [[[-> | ->] ->] | [-> ->]]; simpl; exact Hsw.
Qed.

Lemma switch_out_of_bounds_witness :
  let s := set_current_song (Some "c.wav")
             (set_index 2 (set_playlist ["a.wav"; "b.wav"; "c.wav"] init)) in
  run (λ _, Playable) ∅ {| command := "next"; args := [] |} s = s.
Proof.
  apply (switch_out_of_bounds (λ _, Playable) ∅ "next" 1 []).
  - left. split; [by left | reflexivity].
  - vm_compute. intros [_ H]. discriminate H.
Defined.

(** ** The invariant of the transition system *)

Section Invariant.
Variable read_wave : bytes → decoded.

Ltac inv_start :=
  intros [Hidx Hov Hth Hpa]; unrecord.
Ltac zbool :=
  repeat match goal with
    | H : (_ >? _)%Z = _ |- _ => rewrite Z.gtb_ltb in H
    | H : (_ <? _)%Z = true |- _ => apply Z.ltb_lt in H
    | H : (_ <? _)%Z = false |- _ => apply Z.ltb_ge in H
    | H : (_ <=? _)%Z = true |- _ => apply Z.leb_le in H
    | H : (_ <=? _)%Z = false |- _ => apply Z.leb_gt in H
    | H : (_ =? _)%Z = true |- _ => apply Z.eqb_eq in H
    | H : (_ =? _)%Z = false |- _ => apply Z.eqb_neq in H
    | H : bool_decide _ = true |- _ => apply bool_decide_eq_true_1 in H
    | H : bool_decide _ = false |- _ => apply bool_decide_eq_false_1 in H
    end.
Ltac inv_close :=
  zbool; try match goal with t : thread |- _ => destruct t end;
  split; simpl in *; intros; try done; try lia;
  try (intuition (try discriminate; try congruence; try lia)).

Lemma consistent_add args s : consistent s → consistent (add args s).
Proof. rewrite add_app. inv_start. inv_close. Qed.

Lemma consistent_log lv msg s : consistent s → consistent (log lv msg s).
Proof. inv_start. inv_close. Qed.

Lemma consistent_remove_song f s : consistent s → consistent (remove_song f s).
Proof.
  intros Hs. unfold remove_song. destruct (Py.index_of f (playlist s)) as [k|].
  - revert Hs. unfold fix_index. inv_start.
    repeat case_match; inv_close.
  - by apply consistent_log.
Qed.

Lemma consistent_remove_songs names s :
  consistent s → consistent (foldl (λ s filename, remove_song filename s) s names).
Proof.
  revert s. induction names as [|g names IH]; intros s Hs; simpl; [done|].
  apply IH. by apply consistent_remove_song.
Qed.

Lemma consistent_remove names s : consistent s → consistent (remove names s).
Proof.
  unfold remove. destruct (truthy names).
  - apply consistent_remove_songs.
  - apply consistent_log.
Qed.

Lemma consistent_resume s : consistent s → consistent (resume_song s).
Proof. unfold resume_song. inv_start. repeat case_match; inv_close. Qed.

Lemma consistent_pause s : consistent s → consistent (pause_song s).
Proof. unfold pause_song. inv_start. repeat case_match; inv_close. Qed.

Lemma consistent_stop s : consistent s → consistent (stop true s).
Proof.
  unfold stop, resume_song. inv_start. repeat case_match; inv_close.
Qed.

Lemma consistent_spawn s :
  consistent s → thread_running s = false → consistent (spawn s).
Proof. unfold spawn. inv_start. intros ->. repeat case_match; inv_close. Qed.

(** What [join] finds after [stop(reset=False)] while a song is being
    waited for: the thread runs out of [wait_done], back to the loop test and
    out of [play_all]. *)
Lemma join_after_stop fs s h :
  playback_thread s = InWaitDone → current_song s = Some h →
  join read_wave fs (stop false s)
  = leave (finally (set_paused false (set_stopped true
             (if playlist_end s then s else set_update_index true s)))).
Proof.
  unfold join, stop, resume_song. unrecord. intros -> ->.
  destruct paused0, playlist_end0, update_index0; reflexivity.
Qed.

Lemma run_worker_dead n fs s : alive s = false → run_worker read_wave n fs s = s.
Proof. intros Hdead. destruct n; simpl; [done | by rewrite Hdead]. Qed.

Lemma run_worker_plus n m fs s :
  run_worker read_wave (n + m) fs s
  = run_worker read_wave m fs (run_worker read_wave n fs s).
Proof.
  revert s. induction n as [|n IH]; intros s; simpl; [done|].
  destruct (alive s) eqn:Halive; [apply IH|]. by rewrite run_worker_dead.
Qed.

(** In [switch_song], [join] returns: once [stop] has seen a song and set
    [stopped], the thread is gone after two steps at most, and more steps
    change nothing. *)
Lemma join_returns fs s h :
  current_song s = Some h →
  alive (join read_wave fs (stop false s)) = false
  ∧ ∀ n, run_worker read_wave (2 + n) fs (stop false s)
         = join read_wave fs (stop false s).
Proof.
  intros Hcur.
  assert (Hdead : alive (join read_wave fs (stop false s)) = false).
  { revert Hcur. unfold join, stop, resume_song. unrecord. intros ->.
    destruct playback_thread0, paused0, playlist_end0, update_index0; reflexivity. }
  split; [done|]. intros n. rewrite run_worker_plus. by apply run_worker_dead.
Qed.

Lemma consistent_switch_song fs amount s :
  consistent s → consistent (switch_song read_wave fs amount s).
Proof.
  intros Hs. unfold switch_song.
  destruct (current_song s) as [h|] eqn:Hcur; [|done].
  destruct (valid_index amount s) eqn:Hvalid; simpl; [|done].
  assert (Hpc : playback_thread s = InWaitDone).
  { destruct Hs as [_ _ Hth _]. destruct (playback_thread s); naive_solver. }
  rewrite (join_after_stop fs s h Hpc Hcur).
  revert Hs Hvalid Hpc Hcur. unfold valid_index, active, play, spawn, leave, finally.
  inv_start. intros Hvalid -> ->. apply bool_decide_eq_true_1 in Hvalid.
  destruct playlist_end0, update_index0, playlist_info0, playlist0, temp_playlist0;
    simpl in *; split; simpl; intros; try done; try lia; try naive_solver.
Qed.

Lemma warn_missing_logged (fs : gmap string bytes) names s :
  set_logged (logged s) (warn_missing fs names s) = s.
Proof.
  unfold warn_missing. revert s.
  induction names as [|x names IH]; intros s; simpl; [by unrecord|].
  case_decide; [apply IH|].
  specialize (IH (log WARNING ("'" +:+ x +:+ "' not found") s)).
  revert IH. generalize (foldl (λ s x, if decide (is_Some (fs !! x)) then s
                          else log WARNING ("'" +:+ x +:+ "' not found") s)
                          (log WARNING ("'" +:+ x +:+ "' not found") s) names).
  intros s'. unrecord. congruence.
Qed.

Lemma consistent_set_logged v s : consistent s ↔ consistent (set_logged v s).
Proof. split; inv_start; inv_close. Qed.

Lemma consistent_play (fs : gmap string bytes) names s :
  consistent s → consistent (play fs names s).
Proof.
  intros Hs. unfold play. destruct (thread_running s) eqn:Hrun; [done|].
  pose proof (warn_missing_logged fs names s) as Hw.
  revert Hw. generalize (warn_missing fs names s). intros s' Hw.
  assert (Hs' : consistent s' ∧ thread_running s' = false).
  { split.
    - apply (consistent_set_logged (logged s)). by rewrite Hw.
    - rewrite <- Hw in Hrun. by unrecord. }
  destruct Hs' as [Hs' Hrun']. clear Hw.
  generalize (filter (λ x, is_Some (fs !! x)) names). intros l.
  destruct names as [|n names]; simpl.
  - clear s' Hs' Hrun'. revert Hs Hrun. unfold spawn. inv_start. intros ->.
    destruct playlist0, temp_playlist0, playlist_info0; simpl; inv_close.
  - clear s Hs Hrun. revert Hs' Hrun'. unfold spawn. inv_start. intros ->.
    destruct playlist0, l, playlist_info0; simpl; inv_close.
Qed.

Lemma consistent_after_song s : consistent s → consistent (after_song s).
Proof.
  unfold after_song, valid_index. inv_start.
  destruct update_index0, stopped0; simpl; repeat case_match; inv_close.
Qed.

Lemma consistent_wait_done_returns s :
  consistent s → playback_thread s = InWaitDone → paused s = false →
  consistent (wait_done_returns s).
Proof.
  unfold wait_done_returns, after_song, finally, valid_index.
  inv_start. intros -> ->.
  destruct update_index0, stopped0; simpl; repeat case_match; inv_close.
Qed.

Lemma consistent_finally s :
  consistent s → playback_thread s = AtLoop → consistent (finally s).
Proof. unfold finally. inv_start. intros ->. inv_close. Qed.

Lemma remove_song_thread f s :
  playback_thread (remove_song f s) = playback_thread s.
Proof.
  unfold remove_song, fix_index, log. destruct (Py.index_of f (playlist s));
    unrecord; repeat case_match; done.
Qed.

Lemma remove_thread names s :
  playback_thread (remove names s) = playback_thread s.
Proof.
  unfold remove. destruct (truthy names); [|by unrecord].
  revert s. induction names as [|g names IH]; intros s; simpl; [done|].
  by rewrite IH, remove_song_thread.
Qed.

Lemma consistent_loop_step fs s :
  consistent s → playback_thread s = AtLoop → consistent (loop_step read_wave fs s).
Proof.
  intros Hs Hpc. unfold loop_step.
  destruct (playlist_end s) eqn:Hend.
  { revert Hs Hpc Hend. unfold leave. inv_start. intros -> ->. inv_close. }
  assert (Hs1 : consistent (set_update_index true s)) by (revert Hs; inv_start; inv_close).
  assert (Hpc1 : playback_thread (set_update_index true s) = AtLoop) by (by unrecord).
  assert (Hst : stopped (set_update_index true s) = stopped s) by (by unrecord).
  rewrite Hst. clear Hst.
  destruct (stopped s) eqn:Hstop.
  { revert Hs Hpc Hstop. unfold leave. inv_start. intros -> ->. inv_close. }
  revert Hs1 Hpc1. generalize (set_update_index true s). clear. intros s Hs Hpc.
  destruct (Py.getitem (active s) (index s)) as [f|].
  2:{ revert Hs Hpc. inv_start. intros ->. inv_close. }
  unfold play_song.
  destruct (from_wave_file read_wave fs f) eqn:Hopen.
  - revert Hs Hpc. inv_start. intros ->. inv_close.
  - apply consistent_after_song, consistent_finally.
    + by apply consistent_remove_song, consistent_log.
    + rewrite remove_song_thread. by unrecord.
  - apply consistent_after_song, consistent_finally.
    + by apply consistent_remove, consistent_log.
    + rewrite remove_thread. by unrecord.
  - apply consistent_after_song, consistent_finally.
    + by apply consistent_remove, consistent_log.
    + rewrite remove_thread. by unrecord.
Qed.

Lemma consistent_run fs i s : consistent s → consistent (run read_wave fs i s).
Proof.
  intros Hs. unfold run. repeat case_decide.
  - by apply consistent_add.
  - destruct (paused s); [by apply consistent_resume | by apply consistent_play].
  - by apply consistent_stop.
  - by apply consistent_pause.
  - by apply consistent_resume.
  - by apply consistent_switch_song.
  - by apply consistent_switch_song.
  - by apply consistent_remove.
  - done.
Qed.

Lemma consistent_init : consistent init.
Proof. split; simpl; try done. Qed.

(** Every reachable state is consistent. *)
Lemma reachable_consistent s : reachable read_wave s → consistent s.
Proof.
  induction 1 as [|s s' _ IH Hstep]; [apply consistent_init|].
  destruct Hstep as [fs i s | fs s Hen].
  - by apply consistent_run.
  - unfold enabled in Hen. unfold worker_step.
    destruct (playback_thread s) eqn:Hpc; try done.
    + by apply consistent_loop_step.
    + by apply consistent_wait_done_returns.
Qed.

End Invariant.

(** ** Playing: aborted [play], removal of the current track, failing tracks *)

Section Playing.
Variable read_wave : bytes → decoded.
Implicit Types (fs : gmap string bytes) (s : PlayerThread).

(** C6. In an idle reachable state, a [play] that gives up, because none of
    the requested names exists or because no name was given and both
    playlists are empty, starts no playback thread and leaves every
    attribute of the player as it was (the warnings it logs apart). *)
Theorem play_abort_no_change fs (names : list string) s :
  reachable read_wave s →
  thread_running s = false →
  (names ≠ [] ∧ filter (λ x, is_Some (fs !! x)) names = [])
  ∨ (names = [] ∧ playlist s = [] ∧ temp_playlist s = []) →
  let s' := run read_wave fs (PlayCmd names) s in
  set_logged (logged s) s' = s
  ∧ playback_thread s' = Finished ∧ thread_running s' = false.
Proof.
  intros Hreach Hrun Habort.
  destruct (reachable_consistent read_wave s Hreach) as [_ Hov Hth Hpa].
  assert (Htemp : temp_playlist s = []) by auto.
  assert (Hpc : playback_thread s = Finished ∧ current_song s = None).
  { destruct (playback_thread s); intuition congruence. }
  destruct Hpc as [Hpc Hcur].
  assert (Hpaused : paused s = false).
  { destruct (paused s); [|done]. exfalso. by apply Hpa. }
  change (run read_wave fs (PlayCmd names) s)
    with (if paused s then resume_song s else play fs names s).
  cbv zeta. rewrite Hpaused. unfold play. rewrite Hrun.
  pose proof (warn_missing_logged fs names s) as Hw.
  revert Hw. generalize (warn_missing fs names s). intros s1 Hw.
  destruct Habort as [[Hne Hfilter] | (-> & Hpl & _)].
  - destruct names as [|n names]; [done|]. rewrite Hfilter. clear Hfilter Hne.
    unrecord. inversion Hw; subst. done.
  - simpl. rewrite Hpl, Htemp. simpl. clear Hw. by unrecord.
Qed.

Lemma fix_index_at (k : nat) s :
  index s = Z.of_nat k → fix_index k s = set_update_index false s.
Proof.
  unfold fix_index. intros ->.
  rewrite Z.gtb_ltb, Z.ltb_irrefl, Z.eqb_refl. done.
Qed.

(** C2. When the track at the index, the one being played, is removed,
    [update_index] is cleared and the index stays; when the song then ends,
    the index is still not moved, and the next turn of the loop plays the
    track that followed the removed one: nothing is skipped. *)
Theorem removed_current_track_not_skipped fs s (t : string) (k : nat) :
  playback_thread s = InWaitDone →
  stopped s = false → playlist_end s = false → temp_playlist s = [] →
  Py.index_of t (playlist s) = Some k → index s = Z.of_nat k →
  let s1 := run read_wave fs (RmCmd [t]) s in
  let s2 := worker_step read_wave fs s1 in
  let s3 := worker_step read_wave fs s2 in
  update_index s1 = false ∧ index s1 = index s
  ∧ playlist s1 = delete k (playlist s)
  ∧ index s2 = index s ∧ playlist s2 = playlist s1
  ∧ playback_thread s2 = AtLoop
  ∧ ∀ u, playlist s !! S k = Some u → from_wave_file read_wave fs u = Opened →
         song_name s3 = Some u ∧ playback_thread s3 = InWaitDone
         ∧ index s3 = index s.
Proof.
  intros Hpc Hstop Hend Htemp Hk Hidx.
  apply index_of_Some in Hk as (l1 & l2 & Hpl & Hnotin & ->).
  assert (Hs1 : run read_wave fs (RmCmd [t]) s
                = set_update_index false (set_playlist (l1 ++ l2) s)).
  { change (run read_wave fs (RmCmd [t]) s) with (remove_song t s).
    rewrite (remove_song_present t s l1 l2 Hpl Hnotin).
    apply fix_index_at. by unrecord. }
  assert (Hdel : delete (length l1) (playlist s) = l1 ++ l2).
  { rewrite Hpl. apply pop_middle. }
  cbv zeta. rewrite Hs1, Hdel. clear Hs1 Hdel.
  set (s1 := set_update_index false (set_playlist (l1 ++ l2) s)).
  assert (Hs2 : worker_step read_wave fs s1
                = set_playback_thread AtLoop
                    (set_current_song None (set_song_name None s1))).
  { subst s1. unfold worker_step, wait_done_returns, after_song, finally.
    unrecord. by subst. }
  rewrite Hs2. clear Hs2. subst s1.
  split_and!; try (by unrecord).
  intros u Hu Hopen.
  assert (Hl2 : (l1 ++ l2) !! length l1 = Some u).
  { rewrite Hpl in Hu. rewrite lookup_app_r in Hu |- * by lia.
    replace (S (length l1) - length l1)%nat with 1%nat in Hu by lia.
    replace (length l1 - length l1)%nat with 0%nat by lia.
    destruct l2 as [|? l2]; [done|]. exact Hu. }
  revert Hpc Hstop Hend Htemp Hidx Hl2. clear Hpl Hu.
  generalize (l1 ++ l2). intros pl. unrecord.
  intros -> -> -> -> -> Hl2.
  unfold worker_step, loop_step; simpl. unfold active; simpl.
  rewrite getitem_nonneg by lia. rewrite Nat2Z.id, Hl2.
  unfold play_song. rewrite Hopen. done.
Qed.

End Playing.

Lemma play_abort_no_change_witness :
  set_logged (logged init) (run Scenario.all_playable ∅ (PlayCmd ["x.wav"]) init) = init
  ∧ playback_thread (run Scenario.all_playable ∅ (PlayCmd ["x.wav"]) init) = Finished
  ∧ thread_running (run Scenario.all_playable ∅ (PlayCmd ["x.wav"]) init) = false.
Proof.
  apply (play_abort_no_change Scenario.all_playable ∅ ["x.wav"] init).
  - apply reachable_init.
  - reflexivity.
  - left. split; [discriminate | reflexivity].
Defined.

Lemma removed_current_track_not_skipped_witness :
  song_name
    (worker_step Scenario.all_playable Scenario.three_songs
       (worker_step Scenario.all_playable Scenario.three_songs
          (run Scenario.all_playable Scenario.three_songs (RmCmd ["b.wav"])
             Scenario.playing_b)))
  = Some "c.wav".
Proof.
  destruct (removed_current_track_not_skipped Scenario.all_playable
              Scenario.three_songs Scenario.playing_b "b.wav" 1)
    as (_ & _ & _ & _ & _ & _ & Hnext); [reflexivity..|].
  destruct (Hnext "c.wav") as [Hname _]; [reflexivity..|]. exact Hname.
Defined.

(** ** The index bound *)

Lemma reachable_playing_last : reachable Scenario.all_playable Scenario.playing_last.
Proof.
  unfold Scenario.playing_last.
  eapply reachable_step; [|apply step_thread; vm_compute; done].
  eapply reachable_step; [|apply step_thread; vm_compute; done].
  eapply reachable_step; [|apply step_thread; vm_compute; done].
  eapply reachable_step; [|apply step_instruction].
  eapply reachable_step; [|apply step_instruction].
  apply reachable_init.
Qed.

(** C1. The bound [0 <= index < len(active)] does not survive the removal
    of the last track while it is playing: after [add a.wav b.wav], [play],
    the end of a.wav and [rm b.wav] during b.wav, the playlist has one entry
    and the index is 1.  When b.wav ends, the subscript in [play_all] raises
    [IndexError]: the playback thread dies with [thread_running] still set,
    and every later [play] returns at its first test. *)
Theorem remove_last_playing_breaks_bound :
  let s := Scenario.last_removed in
  let s' := worker_step Scenario.all_playable Scenario.two_songs
              (worker_step Scenario.all_playable Scenario.two_songs s) in
  reachable Scenario.all_playable s
  ∧ active s = ["a.wav"] ∧ index s = 1%Z
  ∧ ¬ (0 ≤ index s < Z.of_nat (length (active s)))%Z
  ∧ reachable Scenario.all_playable s'
  ∧ playback_thread s' = Crashed ∧ thread_running s' = true
  ∧ ∀ fs names, run Scenario.all_playable fs (PlayCmd names) s' = s'.
Proof.
  assert (Hr : reachable Scenario.all_playable Scenario.last_removed).
  { eapply reachable_step; [apply reachable_playing_last | apply step_instruction]. }
  cbv zeta. split_and!.
  - exact Hr.
  - reflexivity.
  - reflexivity.
  - vm_compute. intros [_ H]. discriminate H.
  - eapply reachable_step; [|apply step_thread; vm_compute; done].
    eapply reachable_step; [exact Hr | apply step_thread; vm_compute; done].
  - reflexivity.
  - reflexivity.
  - intros fs names. reflexivity.
Qed.

(** ** Tracks that fail to play *)

Lemma after_song_keeps s :
  playlist (after_song s) = playlist s ∧ logged (after_song s) = logged s
  ∧ playback_thread (after_song s) = playback_thread s
  ∧ thread_running (after_song s) = thread_running s
  ∧ (temp_playlist (after_song s) = temp_playlist s ∨ temp_playlist (after_song s) = []).
Proof. unfold after_song. unrecord. repeat case_match; simpl; auto 10. Qed.

Lemma finally_keeps s :
  playlist (finally s) = playlist s ∧ logged (finally s) = logged s
  ∧ playback_thread (finally s) = playback_thread s
  ∧ thread_running (finally s) = thread_running s
  ∧ temp_playlist (finally s) = temp_playlist s.
Proof. unfold finally. by unrecord. Qed.

Lemma remove_song_keeps (f : string) s :
  temp_playlist (remove_song f s) = temp_playlist s
  ∧ thread_running (remove_song f s) = thread_running s
  ∧ (∀ r, r ∈ logged s → r ∈ logged (remove_song f s)).
Proof.
  unfold remove_song, fix_index, log.
  destruct (Py.index_of f (playlist s)); unrecord; repeat case_match; simpl;
    split_and!; try done; intros r Hr; apply elem_of_app; by left.
Qed.

Lemma remove_song_playlist (f : string) s :
  ((f ∉ playlist s) ∧ playlist (remove_song f s) = playlist s)
  ∨ ∃ l1 l2, playlist s = l1 ++ f :: l2 ∧ (f ∉ l1)
             ∧ playlist (remove_song f s) = l1 ++ l2.
Proof.
  destruct (Py.index_of f (playlist s)) as [k|] eqn:Hk.
  - right. apply index_of_Some in Hk as (l1 & l2 & Hpl & Hnotin & ->).
    exists l1, l2. split_and!; [done..|].
    rewrite (remove_song_present _ _ _ _ Hpl Hnotin). unfold fix_index.
    unrecord. by repeat case_match.
  - left. apply index_of_None in Hk. rewrite (remove_song_absent _ _ Hk).
    by unrecord.
Qed.

Section Failing.
Variable read_wave : bytes → decoded.
Implicit Types (fs : gmap string bytes) (s : PlayerThread).

(** C3, as the code has it.  When the file of the track to be played is
    missing, the playback thread logs the cause and removes the first
    occurrence of the name from the main playlist with the very function
    that [rm] uses, index fix included; the overlay is not edited by the
    removal (only cleared when the sequence ends); and the thread is back at
    the loop test, neither finished nor dead. *)
Theorem missing_track_dropped_from_playlist fs s (f : string) :
  playback_thread s = AtLoop → playlist_end s = false → stopped s = false →
  Py.getitem (active s) (index s) = Some f →
  fs !! f = None →
  let cause := (ERROR, "Can't play '" +:+ f +:+ "', not found") in
  let s1 := run read_wave fs (RmCmd [f])
              (log cause.1 cause.2 (set_update_index true s)) in
  let s' := worker_step read_wave fs s in
  s' = after_song (finally s1)
  ∧ cause ∈ logged s'
  ∧ (((f ∉ playlist s) ∧ playlist s' = playlist s)
     ∨ ∃ l1 l2, playlist s = l1 ++ f :: l2 ∧ (f ∉ l1) ∧ playlist s' = l1 ++ l2)
  ∧ temp_playlist s1 = temp_playlist s
  ∧ (temp_playlist s' = temp_playlist s ∨ temp_playlist s' = [])
  ∧ playback_thread s' = AtLoop ∧ thread_running s' = thread_running s.
Proof.
  intros Hpc Hend Hstop Hget Hmissing. cbv zeta.
  change (run read_wave fs (RmCmd [f]) ?x) with (remove_song f x).
  set (s0 := log _ _ (set_update_index true s)).
  assert (Hstep : worker_step read_wave fs s = after_song (finally (remove_song f s0))).
  { unfold worker_step. rewrite Hpc. unfold loop_step. rewrite Hend.
    assert (stopped (set_update_index true s) = false) as -> by (by unrecord).
    assert (active (set_update_index true s) = active s) as -> by (by unrecord).
    assert (index (set_update_index true s) = index s) as -> by (by unrecord).
    rewrite Hget. unfold play_song, from_wave_file. by rewrite Hmissing. }
  rewrite Hstep.
  destruct (after_song_keeps (finally (remove_song f s0))) as (Ha1 & Ha2 & Ha3 & Ha4 & Ha5).
  destruct (finally_keeps (remove_song f s0)) as (Hf1 & Hf2 & Hf3 & Hf4 & Hf5).
  destruct (remove_song_keeps f s0) as (Hr1 & Hr2 & Hr3).
  assert (Hs0 : playlist s0 = playlist s ∧ temp_playlist s0 = temp_playlist s
                ∧ thread_running s0 = thread_running s
                ∧ playback_thread s0 = playback_thread s
                ∧ (ERROR, "Can't play '" +:+ f +:+ "', not found") ∈ logged s0).
  { subst s0. unfold log. unrecord. split_and!; try done.
    apply elem_of_app. right. apply list_elem_of_singleton. done. }
  destruct Hs0 as (Hp0 & Ht0 & Hrun0 & Hth0 & Hlog0).
  split_and!.
  - done.
  - rewrite Ha2, Hf2. by apply Hr3.
  - rewrite Ha1, Hf1, <- Hp0. apply remove_song_playlist.
  - by rewrite Hr1.
  - rewrite Hf5, Hr1, Ht0 in Ha5. exact Ha5.
  - by rewrite Ha3, Hf3, remove_song_thread, Hth0.
  - by rewrite Ha4, Hf4, Hr2.
Qed.

End Failing.

Lemma missing_track_dropped_from_playlist_witness :
  playlist (worker_step Scenario.all_playable ∅
              (set_playback_thread AtLoop
                 (set_playlist ["gone.wav"; "b.wav"] init)))
  = ["b.wav"].
Proof.
  destruct (missing_track_dropped_from_playlist Scenario.all_playable ∅
              (set_playback_thread AtLoop (set_playlist ["gone.wav"; "b.wav"] init))
              "gone.wav")
    as (Hstep & _); [reflexivity..|].
  rewrite Hstep. reflexivity.
Defined.

(** C3, as the specification has it, fails: a track of the overlay whose
    file has gone is still in the overlay after the failure.  Here
    [play x.wav y.wav] started the overlay and the client deleted x.wav
    before the playback thread opened it. *)
Lemma failed_overlay_track_not_removed :
  let s := Scenario.overlay_started in
  let s' := worker_step Scenario.all_playable Scenario.only_y s in
  reachable Scenario.all_playable s
  ∧ Py.getitem (active s) (index s) = Some "x.wav"
  ∧ from_wave_file Scenario.all_playable Scenario.only_y "x.wav" = FileNotFoundError
  ∧ temp_playlist s = ["x.wav"; "y.wav"]
  ∧ temp_playlist s' = ["x.wav"; "y.wav"]
  ∧ "x.wav" ∈ active s'.
Proof.
  cbv zeta. split_and!; try reflexivity.
  - eapply reachable_step; [apply reachable_init | apply step_instruction].
  - vm_compute. left.
Qed.

(** The handlers of [wave.Error] and [EOFError] pass the file name, a
    [str], to [remove], which iterates over its characters: the track that
    failed stays in the playlist, and a track whose name is one of those
    characters is removed instead. *)
Lemma unsupported_track_stays :
  let s := Scenario.text_queued in
  let s' := worker_step Scenario.by_first_byte Scenario.text_file s in
  playlist s = ["ab"; "b"]
  ∧ from_wave_file Scenario.by_first_byte Scenario.text_file "ab"
    = WaveError "file does not start with RIFF id"
  ∧ playlist s' = ["ab"]
  ∧ (WARNING, "'a' not in playlist") ∈ logged s'.
Proof.
  cbv zeta. split_and!; try reflexivity.
  vm_compute. right. left.
Qed.

(** ** The client thread: downloads *)

Section Download.
Import Client.
Implicit Types (c : ClientThread) (f : string) (d : bytes).

Lemma truthy_nonempty {A} (l : list A) : l ≠ [] → Player.truthy l = true.
Proof. by destruct l. Qed.

Lemma recv_loop_chunks f (chunks : list bytes) (rest : list bytes) c (content : bytes) :
  Forall (λ d, d ≠ []) chunks →
  inbox c = chunks ++ [] :: rest →
  files c !! f = Some content →
  recv_loop f (chunks ++ [] :: rest) c
  = Some (tt, mkClient (<[f := content ++ concat chunks]> (files c)) rest (q c)
                (trace c ++ (chunks ≫= chunk_events f) ++ [Recv []]) (logged c)).
Proof.
  intros Hne. revert c content.
  induction Hne as [|d chunks Hd _ IH]; intros c content Hin Hf; simpl.
  - unfold bind, recv, ret. rewrite Hin. simpl. do 3 f_equal.
    rewrite app_nil_r. by rewrite insert_id.
  - rewrite (truthy_nonempty d Hd). unfold bind, recv, file_write, send_string, emit.
    rewrite Hin. simpl. rewrite Hf. simpl.
    erewrite IH; [| done | simpl; apply lookup_insert_eq].
    simpl. rewrite insert_insert_eq. do 3 f_equal.
    + by rewrite <- !app_assoc.
    + by rewrite <- !app_assoc.
Qed.

(** C8. A track that is not there yet, answered by a non-empty first chunk,
    any number of further non-empty chunks and the empty chunk that ends the
    stream: the download accepts the track and the new file holds the chunks
    concatenated in the order received.  The trace is the request followed,
    for each chunk in turn, by its receipt, its write and its
    acknowledgment, so every chunk is acknowledged before the next one is
    received. *)
Theorem download_concatenates_chunks f c (first : bytes) (chunks rest : list bytes) :
  files c !! f = None →
  first ≠ [] → Forall (λ d, d ≠ []) chunks →
  inbox c = first :: chunks ++ [] :: rest →
  download [f] c
  = Some ([f],
          mkClient (<[f := first ++ concat chunks]> (files c)) rest (q c)
            (trace c ++ SendJson "down" f
               :: ((first :: chunks) ≫= chunk_events f) ++ [Recv []])
            (logged c)).
Proof.
  intros Hnew Hfirst Hchunks Hin.
  unfold download, download_from, download_one, bind, path_exists, send_json,
    emit, recv, open_ab, file_write, send_string, ret.
  rewrite Hnew. simpl. rewrite Hin. simpl. rewrite (truthy_nonempty first Hfirst).
  simpl. rewrite Hnew. simpl. rewrite lookup_insert_eq. simpl.
  erewrite (recv_loop_chunks f chunks rest _ first Hchunks);
    [| done | simpl; apply lookup_insert_eq].
  simpl. rewrite !insert_insert_eq. do 3 f_equal.
  rewrite <- !app_assoc. done.
Qed.


Lemma recv_loop_files f (replies : list bytes) c u c' :
  recv_loop f replies c = Some (u, c') → inbox c = replies →
  (is_Some (files c !! f) → is_Some (files c' !! f))
  ∧ (∀ x, x ≠ f → files c' !! x = files c !! x).
Proof.
  revert c. induction replies as [|d replies IH]; intros c; simpl; [done|].
  destruct (Player.truthy d).
  - unfold bind, recv, file_write, send_string, emit. intros Hloop Hin.
    rewrite Hin in Hloop. simpl in Hloop.
    apply IH in Hloop as [Hsome Hother]; [|done]. simpl in *. split.
    + intros _. apply Hsome. rewrite lookup_insert_eq. eauto.
    + intros x Hx. rewrite Hother by done. by rewrite lookup_insert_ne.
  - unfold bind, recv, ret. intros Hloop Hin. rewrite Hin in Hloop.
    by simplify_eq/=.
Qed.

Lemma download_one_files f c (ok : bool) c' :
  download_one f c = Some (ok, c') →
  (ok = true ↔ is_Some (files c' !! f))
  ∧ (∀ x, x ≠ f → files c' !! x = files c !! x)
  ∧ (∀ x, is_Some (files c !! x) → is_Some (files c' !! x)).
Proof.
  unfold download_one, bind, path_exists, send_json, emit, recv, open_ab,
    file_write, send_string, warning, ret.
  case_bool_decide as Hpresent; simpl.
  { intros [= <- <-]. by split_and!. }
  assert (Hnone : files c !! f = None).
  { destruct (files c !! f) eqn:E; [|done]. exfalso. apply Hpresent. eauto. }
  destruct (inbox c) as [|d replies] eqn:Hin; simpl; [done|].
  destruct (Player.truthy d); simpl.
  - rewrite Hnone. simpl.
    destruct (recv_loop _ _ _) as [[u c1]|] eqn:Hloop; [|done].
    intros [= <- <-].
    apply recv_loop_files in Hloop as [Hsome Hother]; [|done]. simpl in *.
    assert (Hf : is_Some (files c1 !! f)).
    { apply Hsome. rewrite lookup_insert_eq. eauto. }
    assert (Hx : ∀ x, x ≠ f → files c1 !! x = files c !! x).
    { intros x Hx. rewrite Hother by done. by rewrite !lookup_insert_ne. }
    split_and!; [done | done |].
    intros x Hsx. destruct (decide (x = f)) as [->|Hne]; [done|].
    by rewrite Hx.
  - intros [= <- <-]. simpl. split_and!; [|done|done].
    rewrite Hnone. split; [done | by intros [??]].
Qed.

Lemma download_from_subset (acc args : list string) c (r : list string) c' :
  download_from acc args c = Some (r, c') → NoDup args →
  r = acc ++ filter (λ x, is_Some (files c' !! x)) args
  ∧ (∀ x, (x ∉ args) → files c' !! x = files c !! x)
  ∧ (∀ x, is_Some (files c !! x) → is_Some (files c' !! x)).
Proof.
  revert acc c. induction args as [|f args IH]; intros acc c; simpl.
  - unfold ret. intros [= <- <-] _. by rewrite app_nil_r.
  - unfold bind at 1. destruct (download_one f c) as [[ok c1]|] eqn:Hone; [|done].
    intros Hrest Hnodup. apply NoDup_cons in Hnodup as [Hf Hnodup].
    apply download_one_files in Hone as (Hok & Hother1 & Hmono1).
    apply IH in Hrest as (-> & Hother & Hmono); [|done].
    assert (Hsame : files c' !! f = files c1 !! f) by (by apply Hother).
    split_and!.
    + rewrite filter_cons. rewrite Hsame. destruct ok.
      * rewrite decide_True by (by apply Hok). by rewrite <- app_assoc.
      * rewrite decide_False; [done|]. intros Hs. apply Hok in Hs. done.
    + intros x Hx. apply not_elem_of_cons in Hx as [Hne Hx].
      rewrite Hother by done. by apply Hother1.
    + intros x Hx. by apply Hmono, Hmono1.
Qed.

(** C7. A requested track that is not there and whose first reply chunk is
    empty is not accepted and no file is created for it; the request was
    sent, the empty chunk received and a warning logged, nothing else.  The
    remaining tracks are processed from that state, and the list returned
    holds exactly the requested tracks that exist locally afterwards (for a
    request that names no track twice).  A [play] of that one track alone is
    not put in the queue. *)
Theorem empty_first_chunk_skips_track f (rest acc : list string) c (replies : list bytes) :
  files c !! f = None →
  inbox c = [] :: replies →
  let c1 := mkClient (files c) replies (q c)
              (trace c ++ [SendJson "down" f; Recv []])
              (logged c ++ ["'" +:+ f +:+ "' not found or it's empty"]) in
  download_one f c = Some (false, c1)
  ∧ download_from acc (f :: rest) c = download_from acc rest c1
  ∧ put_instruction "play" [f] c = Some (tt, c1)
  ∧ ∀ r c', download (f :: rest) c = Some (r, c') → NoDup (f :: rest) →
            files c' !! f = None ∧ (f ∉ r)
            ∧ r = filter (λ x, is_Some (files c' !! x)) rest.
Proof.
  intros Hnew Hin. cbv zeta.
  assert (Hone : download_one f c
                 = Some (false,
                         mkClient (files c) replies (q c)
                           (trace c ++ [SendJson "down" f; Recv []])
                           (logged c ++ ["'" +:+ f +:+ "' not found or it's empty"]))).
  { unfold download_one, bind, path_exists, send_json, emit, recv, warning, ret.
    rewrite Hnew. simpl. rewrite Hin. simpl. by rewrite <- app_assoc. }
  assert (Hfrom : ∀ acc, download_from acc (f :: rest) c
                  = download_from acc rest
                      (mkClient (files c) replies (q c)
                         (trace c ++ [SendJson "down" f; Recv []])
                         (logged c ++ ["'" +:+ f +:+ "' not found or it's empty"]))).
  { intros acc'. simpl. unfold bind at 1. by rewrite Hone. }
  split_and!; [done | apply Hfrom | |].
  - unfold put_instruction.
    change (bool_decide ("play" = "play") && Player.truthy [f]) with true.
    cbv iota. unfold download, download_from, bind. rewrite Hone. reflexivity.
  - intros r c' Hdl Hnodup. unfold download in Hdl.
    pose proof Hdl as Hdl'. rewrite Hfrom in Hdl'.
    apply NoDup_cons in Hnodup as [Hf Hnodup].
    apply download_from_subset in Hdl' as (-> & Hother & _); [|done].
    simpl in *. split_and!.
    + rewrite Hother by done. done.
    + intros Hin'. apply list_elem_of_filter in Hin' as [_ Hin']. done.
    + done.
Qed.

End Download.

Lemma download_concatenates_chunks_witness :
  (λ r, r.2.(Client.files) !! "x.wav") <$>
    Client.download ["x.wav"]
      (Client.mkClient ∅ [[Byte.x52]; [Byte.x49]; [Byte.x46]; []] [] [] [])
  = Some (Some [Byte.x52; Byte.x49; Byte.x46]).
Proof.
  rewrite (download_concatenates_chunks "x.wav"
             (Client.mkClient ∅ [[Byte.x52]; [Byte.x49]; [Byte.x46]; []] [] [] [])
             [Byte.x52] [[Byte.x49]; [Byte.x46]] []).
  - reflexivity.
  - reflexivity.
  - discriminate.
  - repeat constructor; discriminate.
  - reflexivity.
Defined.

Lemma empty_first_chunk_skips_track_witness :
  Client.q <$> (snd <$> Client.put_instruction "play" ["x.wav"]
                          (Client.mkClient ∅ [[]] [] [] []))
  = Some [].
Proof.
  destruct (empty_first_chunk_skips_track "x.wav" [] []
              (Client.mkClient ∅ [[]] [] [] []) [])
    as (_ & _ & Hput & _); [reflexivity..|].
  rewrite Hput. reflexivity.
Defined.

(** ** Program start *)

Lemma listdir_elem (fs : gmap string (list Byte.byte)) (x : string) :
  x ∈ listdir fs ↔ is_Some (fs !! x).
Proof.
  unfold listdir. rewrite list_elem_of_fmap. split.
  - intros ([k v] & -> & Hin). apply elem_of_map_to_list in Hin. simpl. eauto.
  - intros [v Hv]. exists (x, v). split; [done|]. by apply elem_of_map_to_list.
Qed.

(** C10. When the threads start, before any instruction is taken from the
    queue, the songs directory exists (created empty when it was missing)
    and the playlist is its listing: every file there, once; every other
    attribute of the player has its initial value. *)
Theorem main_queues_local_files (disk : option (gmap string (list Byte.byte))) :
  (main disk).1 = default ∅ disk
  ∧ (main disk).2 = Player.set_playlist (listdir (main disk).1) Player.init
  ∧ Player.playlist (main disk).2 = listdir (main disk).1
  ∧ NoDup (Player.playlist (main disk).2)
  ∧ (∀ x, x ∈ Player.playlist (main disk).2 ↔ is_Some ((main disk).1 !! x))
  ∧ Player.playlist (main None).2 = [].
Proof.
  unfold main. simpl. rewrite add_app. simpl.
  split_and!.
  - by destruct disk.
  - done.
  - done.
  - apply NoDup_fst_map_to_list.
  - apply listdir_elem.
  - reflexivity.
Qed.

(** * Further properties of the player *)

(** ** The index stays in range *)

Ltac zb :=
  repeat match goal with
    | H : (_ >? _)%Z = _ |- _ => rewrite Z.gtb_ltb in H
    | H : (_ <? _)%Z = true |- _ => apply Z.ltb_lt in H
    | H : (_ <? _)%Z = false |- _ => apply Z.ltb_ge in H
    | H : (_ =? _)%Z = true |- _ => apply Z.eqb_eq in H
    | H : (_ =? _)%Z = false |- _ => apply Z.eqb_neq in H
    | H : bool_decide _ = true |- _ => apply bool_decide_eq_true_1 in H
    | H : bool_decide _ = false |- _ => apply bool_decide_eq_false_1 in H
    end.

Ltac pos_start := intros [Hrange Hrest Hwait]; unrecord; unfold active in *; simpl in *.
Ltac pos_close :=
  zb; split; unfold active in *; simpl in *; intros;
  rewrite ?length_app in *; simpl in *;
  try done; try lia; try (intuition (try discriminate; try congruence; try lia)).

Lemma same_session_refl s : same_session s s.
Proof. by repeat split. Qed.

Lemma same_session_trans s1 s2 s3 :
  same_session s1 s2 → same_session s2 s3 → same_session s1 s3.
Proof. unfold same_session. intuition congruence. Qed.

Lemma remove_song_session f s : same_session s (remove_song f s).
Proof.
  unfold remove_song, fix_index, log, same_session.
  destruct (Py.index_of f (playlist s)); unrecord; repeat case_match; by repeat split.
Qed.

Lemma log_session lv msg s : same_session s (log lv msg s).
Proof. unfold log, same_session. by unrecord. Qed.

Lemma remove_session names s : same_session s (remove names s).
Proof.
  unfold remove. destruct (truthy names); [|apply log_session].
  revert s. induction names as [|g names IH]; intros s; simpl.
  - apply same_session_refl.
  - eapply same_session_trans; [apply remove_song_session | apply IH].
Qed.

Section Position.
Variable read_wave : list Byte.byte → decoded.
Implicit Types (fs : gmap string (list Byte.byte)) (s : PlayerThread).

Lemma positioned_init : positioned init.
Proof. split; simpl; try done. Qed.

Lemma positioned_add names s : positioned s → positioned (add names s).
Proof.
  rewrite add_app. pos_start. destruct temp_playlist0; pos_close.
Qed.

Lemma positioned_log lv msg s : positioned s → positioned (log lv msg s).
Proof. pos_start. pos_close. Qed.

Lemma positioned_remove_song f s : positioned s → positioned (remove_song f s).
Proof.
  intros Hs. destruct (Py.index_of f (playlist s)) as [k|] eqn:Hk.
  - apply index_of_Some in Hk as (l1 & l2 & Hpl & Hnotin & ->).
    rewrite (remove_song_present _ _ _ _ Hpl Hnotin). clear Hnotin.
    revert Hs Hpl. unfold fix_index. pos_start. intros ->.
    destruct temp_playlist0; repeat case_match; pos_close.
  - apply index_of_None in Hk. rewrite (remove_song_absent _ _ Hk).
    by apply positioned_log.
Qed.

Lemma positioned_remove names s : positioned s → positioned (remove names s).
Proof.
  unfold remove. destruct (truthy names); [|apply positioned_log].
  revert s. induction names as [|g names IH]; intros s Hs; simpl; [done|].
  apply IH. by apply positioned_remove_song.
Qed.

Lemma positioned_resume s : positioned s → positioned (resume_song s).
Proof. unfold resume_song. pos_start. destruct paused0; pos_close. Qed.

Lemma positioned_pause s : positioned s → positioned (pause_song s).
Proof.
  unfold pause_song. pos_start. destruct current_song0, paused0; pos_close.
Qed.

Lemma positioned_stop s : positioned s → positioned (stop true s).
Proof.
  unfold stop, resume_song. pos_start.
  destruct current_song0, paused0; pos_close.
Qed.

Lemma positioned_play fs names s :
  consistent s → positioned s → positioned (play fs names s).
Proof.
  intros Hc Hs. unfold play. destruct (thread_running s) eqn:Hrun; [done|].
  pose proof (warn_missing_logged fs names s) as Hw.
  revert Hw. generalize (warn_missing fs names s). intros s1 Hw.
  generalize (filter (λ x, is_Some (fs !! x)) names). intros l.
  destruct Hc as [_ Hov Hth _].
  assert (Htemp : temp_playlist s = []) by auto.
  assert (Hpc : playback_thread s = Finished).
  { destruct (playback_thread s); intuition congruence. }
  clear Hov Hth.
  destruct Hs as [Hrange Hrest Hwait].
  assert (Hidx : index s = 0%Z) by auto.
  revert Hrun Htemp Hpc Hrange Hrest Hwait Hidx Hw. unfold spawn. unrecord.
  intros -> -> -> Hrange Hrest Hwait -> [= -> -> -> -> -> -> -> -> -> -> -> ->].
  destruct names, l; simpl; repeat case_match; pos_close.
Qed.

Lemma positioned_switch_song fs amount s :
  consistent s → positioned s → positioned (switch_song read_wave fs amount s).
Proof.
  intros Hc Hs. unfold switch_song.
  destruct (current_song s) as [h|] eqn:Hcur; [|done].
  destruct (valid_index amount s) eqn:Hvalid; simpl; [|done].
  assert (Hpc : playback_thread s = InWaitDone).
  { destruct Hc as [_ _ Hth _]. destruct (playback_thread s); intuition congruence. }
  rewrite (join_after_stop read_wave fs s h Hpc Hcur).
  destruct Hs as [Hrange Hrest Hwait]. specialize (Hwait Hpc). clear Hc.
  revert Hvalid Hpc Hcur Hrange Hrest Hwait.
  unfold valid_index, active, play, spawn, leave, finally. unrecord.
  intros Hvalid -> -> Hrange Hrest ->. apply bool_decide_eq_true_1 in Hvalid.
  destruct update_index0, playlist_info0, playlist0, temp_playlist0;
    simpl in *; split; unfold active; simpl; intros; try done; try lia;
    try (intuition (try discriminate; try congruence; try lia)).
Qed.

Lemma positioned_after_song s :
  positioned s → playback_thread s ≠ InWaitDone →
  thread_running s = true → playlist_end s = false →
  positioned (after_song s).
Proof.
  unfold after_song, valid_index. pos_start. intros Hpc -> ->.
  destruct temp_playlist0, update_index0, stopped0; simpl; repeat case_match; pos_close.
Qed.

Lemma positioned_wait_done_returns s :
  consistent s → positioned s → playback_thread s = InWaitDone →
  positioned (wait_done_returns s).
Proof.
  intros [_ _ Hth _] Hs Hpc. rewrite Hpc in Hth. destruct Hth as [Hrun _].
  revert Hs Hpc Hrun.
  unfold wait_done_returns, after_song, finally, valid_index. pos_start.
  intros -> ->. specialize (Hwait eq_refl). subst.
  destruct temp_playlist0, update_index0, stopped0; simpl; repeat case_match; pos_close.
Qed.

Lemma positioned_finally s : positioned s → positioned (finally s).
Proof. unfold finally. pos_start. pos_close. Qed.

Lemma positioned_loop_step fs s :
  consistent s → positioned s → playback_thread s = AtLoop →
  positioned (loop_step read_wave fs s).
Proof.
  intros [_ _ Hth _] Hs Hpc. rewrite Hpc in Hth. destruct Hth as [Hrun _].
  unfold loop_step.
  destruct (playlist_end s) eqn:Hend.
  { revert Hs Hpc Hend. unfold leave. pos_start. intros -> ->. pos_close. }
  assert (Hs1 : positioned (set_update_index true s)) by (revert Hs; pos_start; pos_close).
  assert (Hpc1 : playback_thread (set_update_index true s) = AtLoop) by (by unrecord).
  assert (Hend1 : playlist_end (set_update_index true s) = false) by (by unrecord).
  assert (Hst : stopped (set_update_index true s) = stopped s) by (by unrecord).
  rewrite Hst. clear Hst.
  destruct (stopped s) eqn:Hstop.
  { revert Hs Hpc Hstop. unfold leave. pos_start. intros -> ->. pos_close. }
  assert (Hrun1 : thread_running (set_update_index true s) = true) by (by unrecord).
  revert Hs1 Hpc1 Hend1 Hrun1. generalize (set_update_index true s). clear.
  intros s Hs Hpc Hend Hrun.
  destruct (Py.getitem (active s) (index s)) as [f|].
  2:{ revert Hs Hpc. pos_start. intros ->. pos_close. }
  assert (Hfail : ∀ s1, positioned s1 → same_session s s1 →
                        positioned (after_song (finally s1))).
  { intros s1 Hs1 (_ & Hpc1 & Hrun1 & Hend1 & _).
    destruct (finally_keeps s1) as (_ & _ & Hf3 & Hf4 & _).
    apply positioned_after_song.
    - by apply positioned_finally.
    - rewrite Hf3, Hpc1, Hpc. done.
    - by rewrite Hf4, Hrun1.
    - unfold finally. rewrite <- Hend, <- Hend1. by unrecord. }
  unfold play_song.
  destruct (from_wave_file read_wave fs f) eqn:Hopen.
  - revert Hs Hpc Hend. pos_start. intros -> ->. pos_close.
  - apply Hfail.
    + by apply positioned_remove_song, positioned_log.
    + eapply same_session_trans; [apply log_session | apply remove_song_session].
  - apply Hfail.
    + by apply positioned_remove, positioned_log.
    + eapply same_session_trans; [apply log_session | apply remove_session].
  - apply Hfail.
    + by apply positioned_remove, positioned_log.
    + eapply same_session_trans; [apply log_session | apply remove_session].
Qed.

Lemma positioned_run fs i s :
  consistent s → positioned s → positioned (run read_wave fs i s).
Proof.
  intros Hc Hs. unfold run. repeat case_decide.
  - by apply positioned_add.
  - destruct (paused s); [by apply positioned_resume | by apply positioned_play].
  - by apply positioned_stop.
  - by apply positioned_pause.
  - by apply positioned_resume.
  - by apply positioned_switch_song.
  - by apply positioned_switch_song.
  - by apply positioned_remove.
  - done.
Qed.

Lemma reachable_positioned s : reachable read_wave s → positioned s.
Proof.
  induction 1 as [|s s' Hreach IH Hstep]; [apply positioned_init|].
  pose proof (reachable_consistent read_wave s Hreach) as Hc.
  destruct Hstep as [fs i s | fs s Hen].
  - by apply positioned_run.
  - unfold enabled in Hen. unfold worker_step.
    destruct (playback_thread s) eqn:Hpc; try done.
    + by apply positioned_loop_step.
    + by apply positioned_wait_done_returns.
Qed.

(** X1. In every reachable state the index lies between 0 and the length of
    the active sequence, both included, so a subscript with it never counts
    from the end; and whenever no playback thread is running the index is
    0: playback always restarts from the first track. *)
Theorem reachable_index_in_range s :
  reachable read_wave s →
  (0 ≤ index s ≤ Z.of_nat (length (active s)))%Z
  ∧ (thread_running s = false → index s = 0%Z).
Proof.
  intros Hreach. destruct (reachable_positioned s Hreach) as [Hrange Hrest _].
  split; [done | auto].
Qed.

End Position.

Lemma reachable_index_in_range_witness :
  (0 ≤ index Scenario.last_removed
     ≤ Z.of_nat (length (active Scenario.last_removed)))%Z
  ∧ (thread_running Scenario.last_removed = false
     → index Scenario.last_removed = 0%Z).
Proof.
  apply (reachable_index_in_range Scenario.all_playable).
  eapply reachable_step; [apply reachable_playing_last | apply step_instruction].
Defined.

(** ** The playback thread: failure of the subscript, and what follows *)

Section Thread.
Variable read_wave : list Byte.byte → decoded.
Implicit Types (fs : gmap string (list Byte.byte)) (s : PlayerThread).

Lemma after_song_thread s : playback_thread (after_song s) = playback_thread s.
Proof. by destruct (after_song_keeps s) as (_ & _ & -> & _). Qed.

Lemma play_song_thread fs f s :
  playback_thread s = AtLoop →
  playback_thread (play_song read_wave fs f s)
  = match from_wave_file read_wave fs f with
    | Opened => InWaitDone
    | _ => AtLoop
    end.
Proof.
  intros Hpc. unfold play_song.
  destruct (from_wave_file read_wave fs f).
  - by unrecord.
  - destruct (finally_keeps (remove_song f
       (log ERROR ("Can't play '" +:+ f +:+ "', not found") s))) as (_ & _ & -> & _).
    rewrite remove_song_thread. unrecord. by subst.
  - destruct (finally_keeps (remove (Py.chars f)
       (log ERROR (e +:+ ", file extension must be '.wav'") s))) as (_ & _ & -> & _).
    rewrite remove_thread. unrecord. by subst.
  - destruct (finally_keeps (remove (Py.chars f)
       (log ERROR ("'" +:+ f +:+ "' is empty") s))) as (_ & _ & -> & _).
    rewrite remove_thread. unrecord. by subst.
Qed.

(** X2. The playback thread dies of [IndexError] exactly when it comes to
    the loop test, neither ended nor stopped, with the index equal to the
    length of the active sequence; in every other reachable state of that
    kind the step leaves it waiting for a song or back at the loop test. *)
Theorem index_error_iff fs s :
  reachable read_wave s →
  playback_thread s = AtLoop → playlist_end s = false → stopped s = false →
  (playback_thread (worker_step read_wave fs s) = Crashed
   ↔ index s = Z.of_nat (length (active s)))
  ∧ (playback_thread (worker_step read_wave fs s) = Crashed
     → thread_running (worker_step read_wave fs s) = true).
Proof.
  intros Hreach Hpc Hend Hstop.
  destruct (reachable_positioned read_wave s Hreach) as [Hrange _ _].
  destruct (reachable_consistent read_wave s Hreach) as [_ _ Hth _].
  rewrite Hpc in Hth. destruct Hth as [Hrun _].
  unfold worker_step. rewrite Hpc. unfold loop_step. rewrite Hend.
  assert (stopped (set_update_index true s) = false) as -> by (by unrecord).
  assert (active (set_update_index true s) = active s) as -> by (by unrecord).
  assert (index (set_update_index true s) = index s) as -> by (by unrecord).
  rewrite getitem_nonneg by lia.
  destruct (active s !! Z.to_nat (index s)) as [f|] eqn:Hget.
  - apply lookup_lt_Some in Hget.
    assert (Hpc' : playback_thread (set_update_index true s) = AtLoop) by (by unrecord).
    pose proof (play_song_thread fs f _ Hpc') as Hplay.
    assert (Hno : playback_thread
                    (match from_wave_file read_wave fs f with
                     | Opened => play_song read_wave fs f (set_update_index true s)
                     | _ => after_song (play_song read_wave fs f (set_update_index true s))
                     end) ≠ Crashed).
    { destruct (from_wave_file read_wave fs f);
        rewrite ?after_song_thread, Hplay; done. }
    split; [split|]; intros; [done | lia | done].
  - apply lookup_ge_None in Hget. split; [split|]; intros.
    + lia.
    + by unrecord.
    + unrecord. by subst.
Qed.

(** X3. A dead playback thread is never replaced: from a reachable state
    whose thread is [Crashed], every step leaves it [Crashed] with
    [thread_running] set and no current song, so no instruction, [play]
    included, starts a song again. *)
Theorem crashed_stays_crashed s s' :
  reachable read_wave s → playback_thread s = Crashed →
  step read_wave s s' →
  playback_thread s' = Crashed ∧ thread_running s' = true
  ∧ current_song s' = None.
Proof.
  intros Hreach Hpc Hstep.
  destruct (reachable_consistent read_wave s Hreach) as [_ _ Hth Hpa].
  rewrite Hpc in Hth. destruct Hth as [Hrun Hcur].
  assert (Hpaused : paused s = false).
  { destruct (paused s); [|done]. exfalso. by apply Hpa. }
  destruct Hstep as [fs i s | fs s Hen].
  2:{ unfold enabled in Hen. by rewrite Hpc in Hen. }
  assert (Hsame : ∀ s1, same_session s s1 →
            playback_thread s1 = Crashed ∧ thread_running s1 = true
            ∧ current_song s1 = None).
  { intros s1 (_ & -> & -> & _ & _ & _ & -> & _). done. }
  unfold run. repeat case_decide.
  - rewrite add_app. apply Hsame. unfold same_session. by unrecord.
  - rewrite Hpaused. unfold play. by rewrite Hrun.
  - unfold stop. by rewrite Hcur.
  - unfold pause_song. by rewrite Hcur.
  - unfold resume_song. by rewrite Hpaused.
  - unfold switch_song. by rewrite Hcur.
  - unfold switch_song. by rewrite Hcur.
  - apply Hsame, remove_session.
  - done.
Qed.

End Thread.

Lemma reachable_last_removed :
  reachable Scenario.all_playable Scenario.last_removed.
Proof.
  eapply reachable_step; [apply reachable_playing_last | apply step_instruction].
Qed.

Lemma reachable_after_last_removed :
  reachable Scenario.all_playable
    (worker_step Scenario.all_playable Scenario.two_songs Scenario.last_removed).
Proof.
  eapply reachable_step; [apply reachable_last_removed|].
  apply step_thread. vm_compute. done.
Qed.

Lemma index_error_iff_witness :
  playback_thread
    (worker_step Scenario.all_playable Scenario.two_songs
       (worker_step Scenario.all_playable Scenario.two_songs Scenario.last_removed))
  = Crashed.
Proof.
  destruct (index_error_iff Scenario.all_playable Scenario.two_songs
              (worker_step Scenario.all_playable Scenario.two_songs
                 Scenario.last_removed)) as [Hiff _].
  - apply reachable_after_last_removed.
  - reflexivity.
  - reflexivity.
  - reflexivity.
  - apply Hiff. reflexivity.
Defined.

Lemma crashed_stays_crashed_witness :
  playback_thread
    (run Scenario.all_playable Scenario.two_songs (PlayCmd ["a.wav"])
       (worker_step Scenario.all_playable Scenario.two_songs
          (worker_step Scenario.all_playable Scenario.two_songs
             Scenario.last_removed)))
  = Crashed.
Proof.
  eapply (crashed_stays_crashed Scenario.all_playable).
  - eapply reachable_step; [apply reachable_after_last_removed|].
    apply step_thread. vm_compute. done.
  - reflexivity.
  - apply step_instruction.
Defined.

(** ** Instructions that act on the session *)

Section Session.
Variable read_wave : list Byte.byte → decoded.
Implicit Types (fs : gmap string (list Byte.byte)) (s : PlayerThread).

Lemma reachable_waiting s h :
  reachable read_wave s → current_song s = Some h →
  playback_thread s = InWaitDone ∧ thread_running s = true
  ∧ playlist_end s = false.
Proof.
  intros Hreach Hcur.
  destruct (reachable_consistent read_wave s Hreach) as [_ _ Hth _].
  destruct (reachable_positioned read_wave s Hreach) as [_ _ Hwait].
  destruct (playback_thread s) eqn:Hpc; try (exfalso; intuition congruence).
  split_and!; [done | by destruct Hth | by apply Hwait].
Qed.

(** X4. A user's [stop] while a song is being played ends the session: the
    playback thread needs two steps to leave [play_all], after which no
    thread runs, no song is current, the index is 0, the overlay is empty
    and nothing is paused; the main playlist is what it was. *)
Theorem stop_ends_session fs (a : list string) s (h : string) :
  reachable read_wave s → current_song s = Some h →
  let s1 := run read_wave fs {| command := "stop"; args := a |} s in
  let s3 := worker_step read_wave fs (worker_step read_wave fs s1) in
  enabled s1
  ∧ playback_thread s3 = Finished ∧ thread_running s3 = false
  ∧ current_song s3 = None ∧ song_name s3 = None
  ∧ index s3 = 0%Z ∧ temp_playlist s3 = [] ∧ paused s3 = false
  ∧ playlist s3 = playlist s.
Proof.
  intros Hreach Hcur.
  destruct (reachable_waiting s h Hreach Hcur) as (Hpc & Hrun & Hend).
  change (run read_wave fs {| command := "stop"; args := a |} s) with (stop true s).
  cbv zeta. revert Hcur Hpc Hrun Hend. clear Hreach.
  unfold stop, resume_song, enabled. unrecord. intros -> -> -> ->.
  destruct paused0, update_index0; simpl; done.
Qed.

(** X5. Pausing the current song and then resuming it, by [resume] or by
    [play] with any arguments, gives back the state before the pause: a
    [play] during a pause starts nothing and does not touch the overlay.  A
    second [pause] changes nothing, and the playback thread cannot move
    while the song is paused. *)
Theorem pause_resume_round_trip fs (a b names : list string) s (h : string) :
  reachable read_wave s → current_song s = Some h → paused s = false →
  let p := run read_wave fs {| command := "pause"; args := a |} s in
  paused p = true
  ∧ run read_wave fs {| command := "resume"; args := b |} p = s
  ∧ run read_wave fs (PlayCmd names) p = s
  ∧ run read_wave fs {| command := "pause"; args := b |} p = p
  ∧ ¬ enabled p.
Proof.
  intros Hreach Hcur Hpaused.
  destruct (reachable_waiting s h Hreach Hcur) as (Hpc & _ & _).
  change (run read_wave fs {| command := "pause"; args := a |} s) with (pause_song s).
  cbv zeta.
  change (run read_wave fs {| command := "resume"; args := b |} (pause_song s))
    with (resume_song (pause_song s)).
  change (run read_wave fs (PlayCmd names) (pause_song s))
    with (if paused (pause_song s) then resume_song (pause_song s)
          else play fs names (pause_song s)).
  change (run read_wave fs {| command := "pause"; args := b |} (pause_song s))
    with (pause_song (pause_song s)).
  revert Hcur Hpaused Hpc. clear Hreach.
  unfold pause_song, resume_song, enabled. unrecord. intros -> -> ->. simpl.
  split_and!; done.
Qed.

(** X6. [next], [skip] and [prev] with a candidate index inside the active
    sequence, given while a song is played: the old thread is stopped and
    joined, the index moves by exactly one step, whether or not a removal
    had cleared [update_index] (the joined thread has set it again), and a
    new thread stands at the loop test with both playlists unchanged; its
    first step plays the track at the new index. *)
Theorem switch_moves_index fs (c : string) (amount : Z) (a : list string) s (h : string) :
  (c = "next" ∨ c = "skip") ∧ amount = 1%Z ∨ c = "prev" ∧ amount = (-1)%Z →
  reachable read_wave s → current_song s = Some h →
  (0 ≤ index s + amount < Z.of_nat (length (active s)))%Z →
  let s' := run read_wave fs {| command := c; args := a |} s in
  index s' = (index s + amount)%Z
  ∧ playback_thread s' = AtLoop ∧ thread_running s' = true
  ∧ stopped s' = false ∧ paused s' = false ∧ playlist_end s' = false
  ∧ current_song s' = None ∧ update_index s' = true
  ∧ playlist s' = playlist s ∧ temp_playlist s' = temp_playlist s
  ∧ ∀ u, active s !! Z.to_nat (index s + amount) = Some u →
         from_wave_file read_wave fs u = Opened →
         song_name (worker_step read_wave fs s') = Some u
         ∧ index (worker_step read_wave fs s') = (index s + amount)%Z.
Proof.
  intros Hc Hreach Hcur Hvalid.
  destruct (reachable_waiting s h Hreach Hcur) as (Hpc & Hrun & Hend).
  assert (Hsw : run read_wave fs {| command := c; args := a |} s
                = switch_song read_wave fs amount s).
  { unfold run; simpl. destruct Hc as [[[-> | ->] ->] | [-> ->]]; reflexivity. }
  cbv zeta. rewrite Hsw. clear Hsw Hc.
  unfold switch_song. rewrite Hcur.
  assert (valid_index amount s = true) as ->.
  { unfold valid_index. by apply bool_decide_eq_true_2. }
  simpl negb. cbv iota.
  rewrite (join_after_stop read_wave fs s h Hpc Hcur). rewrite Hend.
  revert Hcur Hpc Hrun Hend Hvalid. clear Hreach.
  unfold play, spawn, leave, finally, active. unrecord. intros -> -> -> -> Hvalid.
  assert (Hne : truthy playlist0 = true ∨ truthy temp_playlist0 = true).
  { destruct temp_playlist0, playlist0; simpl in *; auto. lia. }
  assert (negb (truthy playlist0) && negb (truthy temp_playlist0) = false) as ->.
  { destruct Hne as [-> | ->]; simpl; [done | by rewrite andb_false_r]. }
  destruct playlist_info0; simpl; (split_and!; try done);
    intros u Hu Hopen; unfold worker_step, loop_step, active; simpl;
    rewrite getitem_nonneg by lia; rewrite Hu; unfold play_song;
    rewrite Hopen; done.
Qed.

(** X7. [rm] and [del] only ever take entries out of the main playlist: the
    playlist afterwards is the old one with some entries deleted, in the
    same order; the overlay and the session (thread, current song, paused
    and stopped flags) are untouched, and the index does not grow nor drop
    below 0. *)
Theorem remove_only_deletes fs (c : string) (names : list string) s :
  c = "rm" ∨ c = "del" →
  let s' := run read_wave fs {| command := c; args := names |} s in
  playlist s' `sublist_of` playlist s
  ∧ same_session s s'
  ∧ (index s' ≤ index s)%Z ∧ ((0 ≤ index s)%Z → (0 ≤ index s')%Z).
Proof.
  intros Hc. cbv zeta.
  assert (run read_wave fs {| command := c; args := names |} s = remove names s) as ->.
  { unfold run; simpl. by destruct Hc as [-> | ->]. }
  split; [|split; [apply remove_session|]].
  - unfold remove. destruct (truthy names); [|by unrecord].
    revert s. induction names as [|g names IH]; intros s; simpl; [done|].
    etrans; [apply IH|]. unfold remove_song, fix_index, log, Py.pop.
    destruct (Py.index_of g (playlist s)) as [k|]; [|by unrecord].
    unrecord. repeat case_match; simpl; apply sublist_delete.
  - unfold remove. destruct (truthy names); [|by unrecord].
    revert s. induction names as [|g names IH]; intros s; simpl; [done|].
    assert (Hone : (index (remove_song g s) ≤ index s)%Z
                   ∧ ((0 ≤ index s)%Z → (0 ≤ index (remove_song g s))%Z)).
    { unfold remove_song, fix_index, log.
      destruct (Py.index_of g (playlist s)) as [k|]; [|by unrecord].
      unrecord. repeat case_match; simpl; zb; lia. }
    destruct (IH (remove_song g s)) as [IH1 IH2]. split; [lia | tauto].
Qed.

End Session.

Lemma stop_ends_session_witness :
  let s3 := worker_step Scenario.all_playable Scenario.two_songs
              (worker_step Scenario.all_playable Scenario.two_songs
                 (run Scenario.all_playable Scenario.two_songs
                    {| command := "stop"; args := [] |} Scenario.playing_last)) in
  thread_running s3 = false ∧ index s3 = 0%Z.
Proof.
  destruct (stop_ends_session Scenario.all_playable Scenario.two_songs []
              Scenario.playing_last "b.wav")
    as (_ & _ & Hrun & _ & _ & Hidx & _).
  - apply reachable_playing_last.
  - reflexivity.
  - split; [exact Hrun | exact Hidx].
Defined.

Lemma pause_resume_round_trip_witness :
  run Scenario.all_playable Scenario.two_songs (PlayCmd ["a.wav"])
    (run Scenario.all_playable Scenario.two_songs
       {| command := "pause"; args := [] |} Scenario.playing_last)
  = Scenario.playing_last.
Proof.
  destruct (pause_resume_round_trip Scenario.all_playable Scenario.two_songs
              [] [] ["a.wav"] Scenario.playing_last "b.wav")
    as (_ & _ & Hplay & _).
  - apply reachable_playing_last.
  - reflexivity.
  - reflexivity.
  - exact Hplay.
Defined.

Lemma switch_moves_index_witness :
  song_name
    (worker_step Scenario.all_playable Scenario.two_songs
       (run Scenario.all_playable Scenario.two_songs
          {| command := "prev"; args := [] |} Scenario.playing_last))
  = Some "a.wav".
Proof.
  destruct (switch_moves_index Scenario.all_playable Scenario.two_songs
              "prev" (-1) [] Scenario.playing_last "b.wav")
    as (_ & _ & _ & _ & _ & _ & _ & _ & _ & _ & Hnext).
  - right. split; reflexivity.
  - apply reachable_playing_last.
  - reflexivity.
  - vm_compute. split; [discriminate | reflexivity].
  - destruct (Hnext "a.wav") as [Hname _]; [reflexivity..|]. exact Hname.
Defined.

Lemma remove_only_deletes_witness :
  playlist (run Scenario.all_playable Scenario.two_songs
              {| command := "del"; args := ["b.wav"; "zz.wav"] |}
              Scenario.playing_last)
  `sublist_of` playlist Scenario.playing_last.
Proof.
  apply (remove_only_deletes Scenario.all_playable Scenario.two_songs "del"
           ["b.wav"; "zz.wav"] Scenario.playing_last).
  by right.
Defined.

(** ** Tracks that are not wave files *)

Section NotWave.
Variable read_wave : list Byte.byte → decoded.
Implicit Types (fs : gmap string (list Byte.byte)) (s : PlayerThread).

Lemma playlist_set_logged v s : playlist (set_logged v s) = playlist s.
Proof. by unrecord. Qed.

Lemma remove_absent_names (names : list string) s :
  Forall (λ c, c ∉ playlist s) names →
  set_logged (logged s) (remove names s) = s
  ∧ ∀ r, r ∈ logged s → r ∈ logged (remove names s).
Proof.
  unfold remove. destruct (truthy names).
  2:{ intros _. unfold log. unrecord. split; [done|].
      intros r Hr. apply elem_of_app. by left. }
  revert s. induction names as [|c names IH]; intros s Hall; simpl.
  - split; [by unrecord | done].
  - apply Forall_cons in Hall as [Hc Hall].
    rewrite (remove_song_absent c s Hc).
    set (s1 := log WARNING ("'" +:+ c +:+ "' not in playlist") s).
    assert (Hpl : playlist s1 = playlist s) by (subst s1; unfold log; by unrecord).
    destruct (IH s1) as [IH1 IH2]; [by rewrite Hpl|].
    split.
    + revert IH1. subst s1. unfold log.
      generalize (foldl (λ s0 filename, remove_song filename s0)
                    (set_logged (logged s ++ [(WARNING, "'" +:+ c +:+ "' not in playlist")]) s)
                    names).
      intros s2. unrecord. congruence.
    + intros r Hr. apply IH2. subst s1. unfold log. unrecord.
      apply elem_of_app. by left.
Qed.

(** X8. A track whose file is there but is not a wave file, or is
    truncated, is not taken out of the playlist: the handlers of
    [wave.Error] and [EOFError] hand the name, a [str], to [remove], which
    looks for its one-character pieces.  Unless such a piece is itself an
    entry, the step only logs: the state is exactly what the end of a song
    would have left, so the track is passed over and found again on the
    next run through the playlist. *)
Theorem undecodable_track_is_kept fs s (f : string) :
  playback_thread s = AtLoop → playlist_end s = false → stopped s = false →
  current_song s = None → song_name s = None →
  Py.getitem (active s) (index s) = Some f →
  (∃ e, from_wave_file read_wave fs f = WaveError e)
  ∨ from_wave_file read_wave fs f = EOFError →
  Forall (λ c, c ∉ playlist s) (Py.chars f) →
  let s' := worker_step read_wave fs s in
  set_logged (logged s) s' = after_song (set_update_index true s)
  ∧ playlist s' = playlist s
  ∧ (∃ msg, (ERROR, msg) ∈ logged s').
Proof.
  intros Hpc Hend Hstop Hcur Hname Hget Hfail Hchars. cbv zeta.
  unfold worker_step. rewrite Hpc. unfold loop_step. rewrite Hend.
  assert (stopped (set_update_index true s) = false) as -> by (by unrecord).
  assert (active (set_update_index true s) = active s) as -> by (by unrecord).
  assert (index (set_update_index true s) = index s) as -> by (by unrecord).
  rewrite Hget. unfold play_song.
  assert (Hgen : ∀ msg,
            let s1 := remove (Py.chars f) (log ERROR msg (set_update_index true s)) in
            set_logged (logged s) (after_song (finally s1))
              = after_song (set_update_index true s)
            ∧ playlist (after_song (finally s1)) = playlist s
            ∧ ∃ m, (ERROR, m) ∈ logged (after_song (finally s1))).
  { intros msg. cbv zeta.
    set (s0 := log ERROR msg (set_update_index true s)).
    destruct (remove_absent_names (Py.chars f) s0) as [Hsame Hlogs].
    { subst s0. unfold log. revert Hchars. by unrecord. }
    destruct (after_song_keeps (finally (remove (Py.chars f) s0)))
      as (Ha1 & Ha2 & _).
    destruct (finally_keeps (remove (Py.chars f) s0)) as (Hf1 & Hf2 & _).
    assert (Herr : (ERROR, msg) ∈ logged s0).
    { subst s0. unfold log. unrecord. apply elem_of_app. right. by left. }
    split_and!.
    - revert Hsame. subst s0. unfold log, after_song, finally, valid_index, active.
      generalize (remove (Py.chars f)
                    (set_logged (logged (set_update_index true s) ++ [(ERROR, msg)])
                       (set_update_index true s))).
      intros s2. revert Hcur Hname. unrecord. intros -> -> [= -> -> -> -> -> -> -> -> -> -> -> ->].
      by repeat case_match.
    - rewrite Ha1, Hf1. apply (f_equal playlist) in Hsame.
      rewrite <- (playlist_set_logged (logged s0)), Hsame.
      subst s0. unfold log. by unrecord.
    - exists msg. rewrite Ha2, Hf2. by apply Hlogs. }
  destruct Hfail as [[e ->] | ->]; apply Hgen.
Qed.

End NotWave.

Lemma undecodable_track_is_kept_witness :
  playlist
    (worker_step Scenario.by_first_byte Scenario.text_file
       (run Scenario.by_first_byte Scenario.text_file (PlayCmd [])
          (run Scenario.by_first_byte Scenario.text_file (AddCmd ["ab"; "c.wav"]) init)))
  = ["ab"; "c.wav"].
Proof.
  destruct (undecodable_track_is_kept Scenario.by_first_byte Scenario.text_file
              (run Scenario.by_first_byte Scenario.text_file (PlayCmd [])
                 (run Scenario.by_first_byte Scenario.text_file
                    (AddCmd ["ab"; "c.wav"]) init))
              "ab") as (_ & Hpl & _).
  - reflexivity.
  - reflexivity.
  - reflexivity.
  - reflexivity.
  - reflexivity.
  - reflexivity.
  - left. eexists. reflexivity.
  - repeat constructor; vm_compute; intros H; inversion H as [|? ? ? H1]; subst;
      inversion H1 as [|? ? ? H2]; subst; inversion H2.
  - rewrite Hpl. reflexivity.
Defined.

(** ** A playlist played to its end *)

Section PlayThrough.
Variable read_wave : list Byte.byte → decoded.
Implicit Types (fs : gmap string (list Byte.byte)) (s : PlayerThread).

Lemma song_two_steps fs s (i : nat) (f : string) :
  playback_thread s = AtLoop → playlist_end s = false → stopped s = false →
  current_song s = None → song_name s = None →
  index s = Z.of_nat i → active s !! i = Some f →
  from_wave_file read_wave fs f = Opened →
  alive s = true
  ∧ alive (worker_step read_wave fs s) = true
  ∧ playback_thread (worker_step read_wave fs s) = InWaitDone
  ∧ song_name (worker_step read_wave fs s) = Some f
  ∧ worker_step read_wave fs (worker_step read_wave fs s)
    = after_song (set_update_index true s).
Proof.
  intros Hpc Hend Hstop Hcur Hname Hidx Hget Hopen.
  assert (Hs1 : worker_step read_wave fs s
                = set_playback_thread InWaitDone
                    (set_current_song (Some f)
                       (set_song_name (Some f) (set_update_index true s)))).
  { unfold worker_step. rewrite Hpc. unfold loop_step. rewrite Hend.
    assert (stopped (set_update_index true s) = false) as -> by (by unrecord).
    assert (active (set_update_index true s) = active s) as -> by (by unrecord).
    assert (index (set_update_index true s) = index s) as -> by (by unrecord).
    rewrite getitem_nonneg by lia. rewrite Hidx, Nat2Z.id, Hget, Hopen.
    unfold play_song. by rewrite Hopen. }
  rewrite Hs1. revert Hpc Hcur Hname. clear.
  unfold worker_step, alive, wait_done_returns, finally, after_song, valid_index, active.
  unrecord. intros -> -> ->. split_and!; try done.
  by repeat case_match.
Qed.

Lemma song_two_steps_fuel fs s (i : nat) (f : string) (k : nat) :
  playback_thread s = AtLoop → playlist_end s = false → stopped s = false →
  current_song s = None → song_name s = None →
  index s = Z.of_nat i → active s !! i = Some f →
  from_wave_file read_wave fs f = Opened →
  songs_played read_wave (S (S k)) fs s
    = f :: songs_played read_wave k fs (after_song (set_update_index true s))
  ∧ run_worker read_wave (S (S k)) fs s
    = run_worker read_wave k fs (after_song (set_update_index true s)).
Proof.
  intros Hpc Hend Hstop Hcur Hname Hidx Hget Hopen.
  destruct (song_two_steps fs s i f Hpc Hend Hstop Hcur Hname Hidx Hget Hopen)
    as (Ha & Ha1 & Hpc1 & Hn1 & Hs2).
  split.
  - change (songs_played read_wave (S (S k)) fs s)
      with (if alive s
            then match playback_thread s, playback_thread (worker_step read_wave fs s),
                       song_name (worker_step read_wave fs s) with
                 | AtLoop, InWaitDone, Some filename =>
                     filename :: songs_played read_wave (S k) fs (worker_step read_wave fs s)
                 | _, _, _ => songs_played read_wave (S k) fs (worker_step read_wave fs s)
                 end
            else []).
    rewrite Ha, Hpc, Hpc1, Hn1. f_equal.
    change (songs_played read_wave (S k) fs (worker_step read_wave fs s))
      with (if alive (worker_step read_wave fs s)
            then match playback_thread (worker_step read_wave fs s),
                       playback_thread (worker_step read_wave fs (worker_step read_wave fs s)),
                       song_name (worker_step read_wave fs (worker_step read_wave fs s)) with
                 | AtLoop, InWaitDone, Some filename =>
                     filename :: songs_played read_wave k fs
                                   (worker_step read_wave fs (worker_step read_wave fs s))
                 | _, _, _ => songs_played read_wave k fs
                                (worker_step read_wave fs (worker_step read_wave fs s))
                 end
            else []).
    rewrite Ha1, Hpc1, Hs2. done.
  - simpl. rewrite Ha, Ha1, Hs2. done.
Qed.

Lemma play_through fs (n : nat) : ∀ s (i : nat),
  playback_thread s = AtLoop → playlist_end s = false → stopped s = false →
  current_song s = None → song_name s = None →
  index s = Z.of_nat i → length (active s) = (i + S n)%nat →
  Forall (λ f, from_wave_file read_wave fs f = Opened) (drop i (active s)) →
  songs_played read_wave (2 * S n + 1) fs s = drop i (active s)
  ∧ run_worker read_wave (2 * S n + 1) fs s = played_out s.
Proof.
  induction n as [|n IH]; intros s i Hpc Hend Hstop Hcur Hname Hidx Hlen Hall.
  - destruct (active s !! i) as [f|] eqn:Hget.
    2:{ apply lookup_ge_None in Hget. lia. }
    rewrite (drop_S _ _ _ Hget) in Hall |- *.
    apply Forall_cons in Hall as [Hopen _].
    rewrite drop_ge by lia.
    change (2 * 1 + 1)%nat with (S (S 1)).
    destruct (song_two_steps_fuel fs s i f 1 Hpc Hend Hstop Hcur Hname Hidx Hget Hopen)
      as [-> ->].
    revert Hpc Hend Hstop Hcur Hname Hidx Hlen. clear.
    unfold played_out, leave, after_song, valid_index. unrecord.
    intros -> -> -> -> -> -> Hlen. unfold active in *. simpl in *.
    rewrite bool_decide_eq_false_2 by lia. simpl. done.
  - destruct (active s !! i) as [f|] eqn:Hget.
    2:{ apply lookup_ge_None in Hget. lia. }
    rewrite (drop_S _ _ _ Hget) in Hall |- *.
    apply Forall_cons in Hall as [Hopen Hall].
    replace (2 * S (S n) + 1)%nat with (S (S (2 * S n + 1))) by lia.
    destruct (song_two_steps_fuel fs s i f (2 * S n + 1) Hpc Hend Hstop Hcur Hname
                Hidx Hget Hopen) as [-> ->].
    assert (Hnext : after_song (set_update_index true s)
                    = set_index (Z.of_nat (S i)) (set_update_index true s)).
    { revert Hstop Hidx Hlen. clear. unfold after_song, valid_index. unrecord.
      intros -> -> Hlen. unfold active in *. simpl in *.
      rewrite bool_decide_eq_true_2 by lia. simpl.
      do 2 f_equal. lia. }
    rewrite Hnext.
    assert (Hactive : active (set_index (Z.of_nat (S i)) (set_update_index true s))
                      = active s) by (unfold active; by unrecord).
    destruct (IH (set_index (Z.of_nat (S i)) (set_update_index true s)) (S i))
      as [IH1 IH2]; try (by unrecord); try (by rewrite Hactive).
    + rewrite Hactive. lia.
    + rewrite IH1, IH2, Hactive. split; [done|].
      unfold played_out. by unrecord.
Qed.

(** X9. Left alone, the playback thread plays the active sequence from the
    index to the end, every track once and in order, when all of them can be
    opened; two steps per track and one to leave.  It ends with no thread
    running, the index back at 0, the overlay emptied and the main playlist
    as it was, and further steps change nothing. *)
Theorem play_all_plays_in_order fs s (i : nat) :
  playback_thread s = AtLoop → playlist_end s = false → stopped s = false →
  current_song s = None → song_name s = None →
  index s = Z.of_nat i → (i < length (active s))%nat →
  Forall (λ f, from_wave_file read_wave fs f = Opened) (drop i (active s)) →
  let fuel := (2 * (length (active s) - i) + 1)%nat in
  let s' := run_worker read_wave fuel fs s in
  songs_played read_wave fuel fs s = drop i (active s)
  ∧ playback_thread s' = Finished ∧ thread_running s' = false
  ∧ index s' = 0%Z ∧ temp_playlist s' = [] ∧ playlist s' = playlist s
  ∧ current_song s' = None
  ∧ ∀ more, run_worker read_wave (fuel + more) fs s = s'.
Proof.
  intros Hpc Hend Hstop Hcur Hname Hidx Hlt Hall. cbv zeta.
  destruct (length (active s) - i)%nat as [|n] eqn:Hn; [lia|].
  destruct (play_through fs n s i Hpc Hend Hstop Hcur Hname Hidx) as [Hsongs Hfinal];
    [lia | done |].
  rewrite Hsongs, Hfinal. split_and!; try (unfold played_out, leave; by unrecord).
  intros more. rewrite run_worker_plus, Hfinal. apply run_worker_dead.
  unfold played_out, leave, alive. by unrecord.
Qed.

End PlayThrough.

Lemma play_all_plays_in_order_witness :
  songs_played Scenario.all_playable 5 Scenario.two_songs
    (run Scenario.all_playable Scenario.two_songs (PlayCmd [])
       (run Scenario.all_playable Scenario.two_songs (AddCmd ["a.wav"; "b.wav"]) init))
  = ["a.wav"; "b.wav"].
Proof.
  destruct (play_all_plays_in_order Scenario.all_playable Scenario.two_songs
              (run Scenario.all_playable Scenario.two_songs (PlayCmd [])
                 (run Scenario.all_playable Scenario.two_songs
                    (AddCmd ["a.wav"; "b.wav"]) init)) 0)
    as [Hsongs _].
  - reflexivity.
  - reflexivity.
  - reflexivity.
  - reflexivity.
  - reflexivity.
  - reflexivity.
  - vm_compute. lia.
  - repeat constructor.
  - exact Hsongs.
Defined.

(** * Further properties of the client thread *)

Section Transfer.
Import Client.
Implicit Types (c : ClientThread) (f : string) (d : list Byte.byte).

Lemma download_one_present f c :
  is_Some (files c !! f) → download_one f c = Some (true, c).
Proof.
  intros Hf. unfold download_one, bind, path_exists, ret.
  by rewrite bool_decide_eq_true_2.
Qed.

Lemma download_from_present (acc args : list string) c :
  Forall (λ f, is_Some (files c !! f)) args →
  download_from acc args c = Some (acc ++ args, c).
Proof.
  revert acc. induction args as [|f args IH]; intros acc Hall; simpl.
  - unfold ret. by rewrite app_nil_r.
  - apply Forall_cons in Hall as [Hf Hall]. unfold bind.
    rewrite (download_one_present f c Hf). rewrite IH by done.
    by rewrite <- app_assoc.
Qed.

(** X10. Tracks that are already in the songs directory are accepted
    without a word to the server: when every requested name exists, the
    download returns the request as it is, duplicates included, and the
    socket, the directory and the queue are untouched, even with no reply
    to come. *)
Theorem download_present_is_silent (args : list string) c :
  Forall (λ f, is_Some (files c !! f)) args →
  download args c = Some (args, c).
Proof. intros Hall. unfold download. by rewrite download_from_present. Qed.

Lemma recv_loop_inv f (replies : list (list Byte.byte)) c u c' (content : list Byte.byte) :
  recv_loop f replies c = Some (u, c') → inbox c = replies →
  files c !! f = Some content →
  ∃ chunks, Forall (λ d, d ≠ []) chunks
    ∧ replies = chunks ++ [] :: inbox c'
    ∧ files c' = <[f := content ++ concat chunks]> (files c)
    ∧ trace c' = trace c ++ (chunks ≫= chunk_events f) ++ [Recv []]
    ∧ q c' = q c ∧ logged c' = logged c.
Proof.
  revert c content. induction replies as [|d replies IH]; intros c content; simpl; [done|].
  destruct d as [|b d]; simpl.
  - unfold bind, recv, ret. intros Hloop Hin Hf. rewrite Hin in Hloop.
    simplify_eq/=. exists []. simpl. split_and!; try done.
    by rewrite app_nil_r, insert_id.
  - unfold bind, recv, file_write, send_string, emit. intros Hloop Hin Hf.
    rewrite Hin in Hloop. simpl in Hloop. rewrite Hf in Hloop. simpl in Hloop.
    eapply IH in Hloop as (chunks & Hne & -> & Hfiles & Htrace & Hq & Hlog);
      [| done | simpl; apply lookup_insert_eq].
    simpl in *. exists ((b :: d) :: chunks). split_and!; try done.
    + by apply Forall_cons.
    + rewrite Hfiles, insert_insert_eq. simpl. by rewrite <- app_assoc.
    + rewrite Htrace. simpl. by rewrite <- !app_assoc.
Qed.

Lemma download_one_inv f c (ok : bool) c' :
  download_one f c = Some (ok, c') → files c !! f = None →
  ∃ chunks, Forall (λ d, d ≠ []) chunks
    ∧ inbox c = chunks ++ [] :: inbox c'
    ∧ ok = Player.truthy chunks
    ∧ files c' = (if ok then <[f := concat chunks]> (files c) else files c)
    ∧ trace c' = trace c ++ SendJson "down" f
                   :: (chunks ≫= chunk_events f) ++ [Recv []]
    ∧ q c' = q c.
Proof.
  unfold download_one, bind, path_exists, send_json, emit, recv, open_ab,
    file_write, send_string, warning, ret.
  intros Hdl Hnone. rewrite Hnone in Hdl. simpl in Hdl.
  destruct (inbox c) as [|d replies] eqn:Hin; simpl in Hdl; [done|].
  destruct d as [|b d]; simpl in Hdl.
  - simplify_eq/=. exists []. simpl. split_and!; try done.
    by rewrite <- app_assoc.
  - rewrite Hnone in Hdl. simpl in Hdl. rewrite lookup_insert_eq in Hdl. simpl in Hdl.
    destruct (recv_loop _ _ _) as [[u c1]|] eqn:Hloop; [|done].
    simplify_eq/=.
    eapply recv_loop_inv in Hloop as (chunks & Hne & -> & Hfiles & Htrace & Hq & _);
      [| done | simpl; apply lookup_insert_eq].
    simpl in *. exists ((b :: d) :: chunks). split_and!; try done.
    + by apply Forall_cons.
    + rewrite Hfiles, !insert_insert_eq. done.
    + rewrite Htrace. by rewrite <- !app_assoc.
Qed.

(** X11. Whenever the fetch of a missing track returns, it has consumed the
    replies up to and including the first empty chunk and no more: the
    chunks before it are all non-empty, the track is accepted exactly when
    there is at least one, the file then holds their concatenation (and no
    file appears otherwise), and the trace is the request, one
    receive-write-acknowledge group per chunk and the final empty
    receive. *)
Theorem download_stops_at_first_empty_chunk f c (ok : bool) c' :
  download_one f c = Some (ok, c') → files c !! f = None →
  ∃ chunks, Forall (λ d, d ≠ []) chunks
    ∧ inbox c = chunks ++ [] :: inbox c'
    ∧ (ok = true ↔ chunks ≠ [])
    ∧ files c' !! f = (if ok then Some (concat chunks) else None)
    ∧ (∀ x, x ≠ f → files c' !! x = files c !! x)
    ∧ trace c' = trace c ++ SendJson "down" f
                   :: (chunks ≫= chunk_events f) ++ [Recv []]
    ∧ q c' = q c.
Proof.
  intros Hdl Hnone.
  destruct (download_one_inv f c ok c' Hdl Hnone)
    as (chunks & Hne & Hin & -> & Hfiles & Htrace & Hq).
  exists chunks. split_and!; try done.
  - by destruct chunks.
  - rewrite Hfiles. destruct (Player.truthy chunks); [apply lookup_insert_eq | done].
  - intros x Hx. rewrite Hfiles. destruct (Player.truthy chunks); [|done].
    by rewrite lookup_insert_ne.
Qed.

(** X12. Without an empty chunk the fetch of a missing track never returns:
    if every reply still to come is non-empty, the client stays blocked in
    [recv], whatever the replies are. *)
Theorem download_blocks_without_end_marker f c :
  files c !! f = None → Forall (λ d, d ≠ []) (inbox c) →
  download_one f c = None.
Proof.
  intros Hnone Hall.
  destruct (download_one f c) as [[ok c']|] eqn:Hdl; [|done].
  destruct (download_one_inv f c ok c' Hdl Hnone) as (chunks & _ & Hin & _).
  rewrite Hin in Hall. apply Forall_app in Hall as [_ Hall].
  apply Forall_cons in Hall as [Hnil _]. done.
Qed.

Lemma download_one_keeps f c (ok : bool) c' :
  download_one f c = Some (ok, c') →
  (∀ x b, files c !! x = Some b → files c' !! x = Some b)
  ∧ (ok = true → is_Some (files c' !! f))
  ∧ q c' = q c.
Proof.
  intros Hdl. destruct (files c !! f) as [b0|] eqn:Hf.
  - rewrite download_one_present in Hdl by eauto. simplify_eq. split_and!; eauto.
  - pose proof (download_one_files f c ok c' Hdl) as (Hok & Hother & _).
    destruct (download_one_inv f c ok c' Hdl Hf) as (_ & _ & _ & _ & _ & _ & Hq).
    split_and!; [| by apply Hok | done].
    intros x b Hx. destruct (decide (x = f)) as [->|Hne]; [congruence|].
    by rewrite Hother.
Qed.

Lemma download_from_keeps (acc args : list string) c (r : list string) c' :
  download_from acc args c = Some (r, c') →
  (∀ x b, files c !! x = Some b → files c' !! x = Some b)
  ∧ (∃ r', r = acc ++ r' ∧ r' `sublist_of` args
           ∧ ∀ x, x ∈ r' → is_Some (files c' !! x))
  ∧ q c' = q c.
Proof.
  revert acc c. induction args as [|f args IH]; intros acc c; simpl.
  - unfold ret. intros [= <- <-]. split_and!; [done | | done].
    exists []. rewrite app_nil_r. split_and!; [done | done |].
    intros x Hx. by apply elem_of_nil in Hx.
  - unfold bind at 1. destruct (download_one f c) as [[ok c1]|] eqn:Hone; [|done].
    intros Hrest.
    apply download_one_keeps in Hone as (Hkeep1 & Hok & Hq1).
    apply IH in Hrest as (Hkeep & (r' & -> & Hsub & Hex) & Hq).
    split_and!; [by auto | | congruence].
    destruct ok.
    + exists (f :: r'). rewrite <- app_assoc. split_and!; [done | by constructor |].
      intros x Hx. apply elem_of_cons in Hx as [-> | Hx]; [|by apply Hex].
      destruct Hok as [b Hb]; [done|]. erewrite Hkeep; eauto.
    + exists r'. split_and!; [done | by constructor | done].
Qed.

(** X13. A download never harms what is there: every file that existed
    keeps its content, whatever the server sends.  What it returns is the
    request with some names left out, in the same order, and every name it
    returns exists locally afterwards; the queue is not touched. *)
Theorem download_keeps_files (args : list string) c (r : list string) c' :
  download args c = Some (r, c') →
  (∀ x b, files c !! x = Some b → files c' !! x = Some b)
  ∧ r `sublist_of` args
  ∧ (∀ x, x ∈ r → is_Some (files c' !! x))
  ∧ q c' = q c.
Proof.
  intros Hdl. unfold download in Hdl.
  apply download_from_keeps in Hdl as (Hkeep & (r' & -> & Hsub & Hex) & Hq).
  by split_and!.
Qed.

End Transfer.

Section Commands.
Import Client.
Variable read_wave : list Byte.byte → decoded.
Implicit Types (c : ClientThread) (f : string) (s : Player.PlayerThread).

Lemma filter_all_present (fs : gmap string (list Byte.byte)) (l : list string) :
  Forall (λ x, is_Some (fs !! x)) l → filter (λ x, is_Some (fs !! x)) l = l.
Proof.
  induction 1 as [|x l Hx _ IH]; [done|].
  rewrite filter_cons, decide_True by done. by rewrite IH.
Qed.

Lemma warn_missing_present (fs : gmap string (list Byte.byte)) (l : list string) s :
  Forall (λ x, is_Some (fs !! x)) l → Player.warn_missing fs l s = s.
Proof.
  unfold Player.warn_missing. induction 1 as [|x l Hx _ IH]; simpl; [done|].
  by rewrite decide_True.
Qed.

(** X14. What a download returns can be played: handed to an idle player
    that reads the directory the download left, the accepted names become
    the overlay as they are, none is filtered out and no warning is logged,
    and a playback thread is started at the loop test. *)
Theorem downloaded_tracks_play (args : list string) c (r : list string) c' s :
  download args c = Some (r, c') → r ≠ [] →
  Player.thread_running s = false → Player.paused s = false →
  let s' := Player.run read_wave (files c') (Player.PlayCmd r) s in
  Player.temp_playlist s' = r
  ∧ Player.playback_thread s' = AtLoop ∧ Player.thread_running s' = true
  ∧ Player.logged s' = Player.logged s
  ∧ Player.playlist s' = Player.playlist s ∧ Player.index s' = Player.index s.
Proof.
  intros Hdl Hne Hrun Hpaused.
  assert (Hex : Forall (λ x, is_Some (files c' !! x)) r).
  { unfold download in Hdl.
    apply download_from_keeps in Hdl as (_ & (r' & -> & _ & Hex) & _).
    by apply Forall_forall. }
  change (Player.run read_wave (files c') (Player.PlayCmd r) s)
    with (if Player.paused s then Player.resume_song s
          else Player.play (files c') r s).
  cbv zeta. rewrite Hpaused. unfold Player.play. rewrite Hrun.
  rewrite (truthy_nonempty r Hne).
  rewrite (filter_all_present _ _ Hex), (warn_missing_present _ _ _ Hex).
  revert Hne. clear. unfold Player.spawn. destruct r; [done|]. intros _.
  destruct s; simpl. rewrite andb_false_r.
  destruct playlist_info0; simpl; done.
Qed.

Lemma delete_spec (args : list string) c :
  ∃ c', delete args c = Some (tt, c')
    ∧ (∀ x, x ∈ args → files c' !! x = None)
    ∧ (∀ x, (x ∉ args) → files c' !! x = files c !! x)
    ∧ inbox c' = inbox c ∧ q c' = q c ∧ trace c' = trace c.
Proof.
  revert c. induction args as [|f args IH]; intros c; simpl.
  - exists c. unfold ret. split_and!; try done.
    intros x Hx. by apply elem_of_nil in Hx.
  - unfold bind, delete_one.
    set (c1 := match files c !! f with
               | Some _ => mkClient (base.delete f (files c)) (inbox c) (q c)
                             (trace c) (logged c)
               | None => mkClient (files c) (inbox c) (q c) (trace c)
                           (logged c ++ ["Can't delete '" +:+ f +:+ "', not found"])
               end).
    assert (Hc1 : files c1 !! f = None
                  ∧ (∀ x, x ≠ f → files c1 !! x = files c !! x)
                  ∧ inbox c1 = inbox c ∧ q c1 = q c ∧ trace c1 = trace c).
    { subst c1. destruct (files c !! f) eqn:Hf; simpl; split_and!; try done.
      - apply lookup_delete_eq.
      - intros x Hx. by apply lookup_delete_ne. }
    destruct Hc1 as (Hgone & Hother & Hin & Hq & Htr).
    destruct (IH c1) as (c' & Hdel & Hnone & Hrest & Hin' & Hq' & Htr').
    exists c'. split_and!; try congruence.
    + subst c1. destruct (files c !! f); exact Hdel.
    + intros x Hx. apply elem_of_cons in Hx as [-> | Hx]; [|by apply Hnone].
      destruct (decide (f ∈ args)); [by apply Hnone|]. by rewrite Hrest.
    + intros x Hx. apply not_elem_of_cons in Hx as [Hne Hx].
      rewrite Hrest by done. by apply Hother.
Qed.

(** X15. [delete] never blocks and leaves none of the named files behind;
    every other file, the socket and the queue are as before. *)
Theorem delete_removes_named_files (args : list string) c :
  ∃ c', delete args c = Some (tt, c')
    ∧ (∀ x, x ∈ args → files c' !! x = None)
    ∧ (∀ x, (x ∉ args) → files c' !! x = files c !! x)
    ∧ inbox c' = inbox c ∧ q c' = q c ∧ trace c' = trace c.
Proof. apply delete_spec. Qed.

(** X16. An instruction other than a [play] with names goes into the queue
    as it is, behind the ones already there, and neither the socket nor the
    directory is used; when the queue holds [BUF_SIZE] instructions the
    call blocks.  The queue never grows beyond [BUF_SIZE]. *)
Theorem put_instruction_queues (command : string) (args : list string) c :
  command ≠ "play" ∨ args = [] →
  (length (q c) < BUF_SIZE →
   put_instruction command args c
   = Some (tt, mkClient (files c) (inbox c)
                 (q c ++ [{| Player.command := command; Player.args := args |}])
                 (trace c) (logged c)))
  ∧ (BUF_SIZE ≤ length (q c) → put_instruction command args c = None)
  ∧ ∀ c', put_instruction command args c = Some (tt, c') →
          length (q c') ≤ BUF_SIZE.
Proof.
  intros Hc.
  assert (Hput : put_instruction command args c
                 = put {| Player.command := command; Player.args := args |} c).
  { unfold put_instruction. destruct Hc as [Hc | ->].
    - by rewrite bool_decide_eq_false_2.
    - by rewrite andb_false_r. }
  rewrite Hput. unfold put. split_and!.
  - intros Hlt. by rewrite decide_True.
  - intros Hge. rewrite decide_False; [done | lia].
  - intros c'. case_decide; [|done]. intros [= <-]. simpl.
    rewrite length_app. simpl. lia.
Qed.


(** X18. The [del] command deletes the named files and queues one [del]
    instruction with the same names; when the player takes it, the entries
    leave the main playlist by the rules of [rm]. *)
Theorem command_del_deletes_and_queues (args : list string) c :
  args ≠ [] → length (q c) < BUF_SIZE →
  ∃ c', command_del args c = Some (tt, c')
    ∧ (∀ x, x ∈ args → files c' !! x = None)
    ∧ (∀ x, (x ∉ args) → files c' !! x = files c !! x)
    ∧ q c' = q c ++ [{| Player.command := "del"; Player.args := args |}]
    ∧ ∀ fs s, Player.run read_wave fs
                {| Player.command := "del"; Player.args := args |} s
              = Player.remove args s.
Proof.
  intros Hne Hlt. unfold command_del. rewrite (truthy_nonempty args Hne).
  destruct (delete_spec args c) as (c1 & Hdel & Hnone & Hrest & Hin & Hq & Htr).
  unfold bind. rewrite Hdel. unfold put_instruction. simpl. unfold put.
  rewrite decide_True by (by rewrite Hq).
  eexists. split_and!; [done | done | done | simpl; by rewrite Hq | done].
Qed.

End Commands.

Lemma download_present_is_silent_witness :
  Client.download ["a.wav"; "a.wav"] Scenario.client_with_a
  = Some (["a.wav"; "a.wav"], Scenario.client_with_a).
Proof.
  apply download_present_is_silent.
  repeat constructor; by eexists.
Defined.

Lemma download_stops_at_first_empty_chunk_witness :
  match Client.download_one "y.wav"
          (Client.mkClient ∅ [[Byte.x52]; []; [Byte.x46]] [] [] []) with
  | Some (ok, c') =>
      ∃ chunks, [[Byte.x52]; []; [Byte.x46]] = chunks ++ [] :: Client.inbox c'
  | None => False
  end.
Proof.
  destruct (Client.download_one "y.wav"
              (Client.mkClient ∅ [[Byte.x52]; []; [Byte.x46]] [] [] []))
    as [[ok c']|] eqn:Hdl.
  - destruct (download_stops_at_first_empty_chunk _ _ _ _ Hdl)
      as (chunks & _ & Hin & _); [reflexivity|].
    exists chunks. exact Hin.
  - vm_compute in Hdl. discriminate Hdl.
Defined.

Lemma download_blocks_without_end_marker_witness :
  Client.download_one "y.wav"
    (Client.mkClient ∅ [[Byte.x52]; [Byte.x46]] [] [] [])
  = None.
Proof.
  apply download_blocks_without_end_marker.
  - reflexivity.
  - repeat constructor; discriminate.
Defined.

Lemma download_keeps_files_witness :
  match Client.download ["a.wav"; "x.wav"; "y.wav"] Scenario.client_with_a with
  | Some (r, c') => Client.files c' !! "a.wav" = Some [Byte.x52]
  | None => False
  end.
Proof.
  destruct (Client.download ["a.wav"; "x.wav"; "y.wav"] Scenario.client_with_a)
    as [[r c']|] eqn:Hdl.
  - destruct (download_keeps_files _ _ _ _ Hdl) as (Hkeep & _).
    apply Hkeep. reflexivity.
  - vm_compute in Hdl. discriminate Hdl.
Defined.

Lemma downloaded_tracks_play_witness :
  match Client.download ["a.wav"; "x.wav"; "y.wav"] Scenario.client_with_a with
  | Some (r, c') =>
      temp_playlist (run Scenario.all_playable (Client.files c') (PlayCmd r) init) = r
  | None => False
  end.
Proof.
  destruct (Client.download ["a.wav"; "x.wav"; "y.wav"] Scenario.client_with_a)
    as [[r c']|] eqn:Hdl.
  - apply (downloaded_tracks_play Scenario.all_playable _ _ _ _ init Hdl).
    + pose proof Hdl as Hval. vm_compute in Hval. injection Hval as Hr _.
      rewrite <- Hr. discriminate.
    + reflexivity.
    + reflexivity.
  - vm_compute in Hdl. discriminate Hdl.
Defined.

Lemma put_instruction_queues_witness :
  Client.put_instruction "next" [] Scenario.client_with_a
  = Some (tt, Client.mkClient (Client.files Scenario.client_with_a)
                (Client.inbox Scenario.client_with_a)
                [{| command := "next"; args := [] |}] [] []).
Proof.
  destruct (put_instruction_queues "next" [] Scenario.client_with_a) as (Hput & _).
  - by left.
  - apply Hput. vm_compute. lia.
Defined.


Lemma command_del_deletes_and_queues_witness :
  ∃ c', Client.command_del ["a.wav"] Scenario.client_with_a = Some (tt, c')
        ∧ Client.files c' !! "a.wav" = None.
Proof.
  destruct (command_del_deletes_and_queues Scenario.all_playable ["a.wav"]
              Scenario.client_with_a) as (c' & Hdel & Hnone & _).
  - discriminate.
  - vm_compute. lia.
  - exists c'. split; [exact Hdel|]. apply Hnone. by left.
Defined.
